(** * The multi-step form controller ([useMultiStepForm]) and its orchestrator

    A shallow embedding of [multi-step-form/src/hooks/useMultiStepForm.ts],
    of the schema table of [multi-step-form/src/types.ts] and of the
    [onNext] / [onPrevious] handlers of the [MultiStepForm] component.

    React state is modelled as an explicit record of the three [useState]
    cells.  A render takes a snapshot of the cells; the functions the hook
    returns close over that snapshot and only enqueue [setState] requests,
    which React applies, in order, before the next render.

    The second half of the file covers what surrounds the controller: the
    rendered form and its step components, the progress indicator, and the
    smaller hooks and forms of the course ([useToggle], [useForm],
    [useFetch] with [User], [AdvancedForm]). *)

From stdpp Require Import base gmap strings list.
From Stdlib Require Import ZArith Lia.

Open Scope Z_scope.

(** ** Data model *)

(** A field value.  Every field of the three zod objects is a string
    ([z.string()] or [z.enum([...])]); [Partial<...>] also admits a key
    whose value is [undefined]. *)
Inductive FieldValue : Type :=
  | VString (s : string)
  | VUndefined.

(** [Partial<StepFormData>]: a JS object used as a map from field names to
    values. *)
Abbreviation FormData := (gmap string FieldValue).

(** The checks chained on a [z.string()], with the optional message. *)
Inductive StringCheck : Type :=
  | Min (n : nat) (message : option string)
  | Max (n : nat) (message : option string)
  | Email (message : option string).

Inductive FieldSchema : Type :=
  | ZString (checks : list StringCheck)
  | ZEnum (values : list string).

(** [z.object({...})]: the shape, in declaration order. *)
Definition Schema : Type := list (string * FieldSchema).

Definition personalInfoSchema : Schema :=
  [ ("firstName", ZString [Min 1 (Some "First Name is required")]);
    ("lastName", ZString [Min 1 (Some "Last Name is required")]);
    ("email", ZString [Email (Some "Invalid email address")]);
    ("phone", ZString [Min 11 (Some "Phone number is too short")]) ]%string.

Definition professionalInfoSchema : Schema :=
  [ ("company", ZString [Min 1 (Some "Company is required")]);
    ("position", ZString [Min 1 (Some "Position is required")]);
    ("experience", ZEnum ["0-2"; "3-5"; "6-10"; "10+"]);
    ("industry", ZString [Min 1 (Some "Industry is required")]) ]%string.

Definition billingInfoSchema : Schema :=
  [ ("cardNumber",
     ZString [Min 16 (Some "Card number must be 16 digits");
              Max 16 (Some "Card number must be 16 digits")]);
    ("cardHolder", ZString [Min 1 (Some "Card holder name is required")]);
    ("expiryDate", ZString [Min 4 (Some "Invalid expiry date"); Max 4 None]);
    ("cvv", ZString [Min 3 (Some "Invalid CVV"); Max 4 None]) ]%string.

(** The icon components of [lucide-react], as opaque tokens. *)
Inductive Icon : Type := User | Briefcase | CreditCard.

Record Step : Type := mkStep {
  id : string;
  name : string;
  icon : Icon
}.

Definition stepSchemas : list Schema :=
  [ personalInfoSchema; professionalInfoSchema; billingInfoSchema ].

Definition steps : list Step :=
  [ mkStep "personal" "Personal Info" User;
    mkStep "professional" "Professional Info" Briefcase;
    mkStep "billing" "Billing Info" CreditCard ].

(** ** The three [useState] cells *)

Record HookState : Type := mkState {
  currentStep : Z;
  formData : FormData;
  isSubmitted : bool
}.

(** The initial values passed to [useState]. *)
Definition initialState : HookState :=
  {| currentStep := 0; formData := ∅; isSubmitted := false |}.

(** The argument of a state setter: a new value or an updater function. *)
Inductive SetStateAction (A : Type) : Type :=
  | Value (v : A)
  | Updater (f : A → A).
Arguments Value {A} v.
Arguments Updater {A} f.

Definition resolve {A : Type} (a : SetStateAction A) (prev : A) : A :=
  match a with
  | Value v => v
  | Updater f => f prev
  end.

(** What a call of one of the hook's functions does: it enqueues setter
    calls and may write to the console. *)
Inductive Effect : Type :=
  | SetCurrentStep (a : SetStateAction Z)
  | SetFormData (a : SetStateAction FormData)
  | SetIsSubmitted (a : SetStateAction bool)
  | ConsoleLog (label : string) (data : FormData).

Definition applyEffect (s : HookState) (e : Effect) : HookState :=
  match e with
  | SetCurrentStep a =>
      {| currentStep := resolve a (currentStep s);
         formData := formData s; isSubmitted := isSubmitted s |}
  | SetFormData a =>
      {| currentStep := currentStep s;
         formData := resolve a (formData s); isSubmitted := isSubmitted s |}
  | SetIsSubmitted a =>
      {| currentStep := currentStep s;
         formData := formData s; isSubmitted := resolve a (isSubmitted s) |}
  | ConsoleLog _ _ => s
  end.

(** React applies the queued requests in call order. *)
Definition flush (queue : list Effect) (s : HookState) : HookState :=
  fold_left applyEffect queue s.

(** The object spread [{...prev, ...newData}]: the keys of [newData] win. *)
Definition spread (prev newData : FormData) : FormData := newData ∪ prev.

(** Reading [table[i]] for a number [i]: [undefined] (here [None]) outside
    the array. *)
Definition index {A : Type} (table : list A) (i : Z) : option A :=
  if i <? 0 then None else table !! Z.to_nat i.

(** ** The hook

    [stepTable] stands for the module-level constant [steps]; the hook only
    reads its length.  Every function below takes the snapshot [s] of the
    render it was created in. *)

Inductive Command : Type :=
  | GoToNextStep
  | GoToPreviousStep
  | UpdateFormData (newData : FormData)
  | SubmitForm (data : FormData)
  | ResetForm.

(** The user's actions on the rendered [MultiStepForm].  [Next isValid data]
    is a click on the Next/Submit button for which [handleSubmit] calls
    [onNext data] and [await trigger()] answers [isValid]. *)
Inductive Event : Type :=
  | Next (isValid : bool) (data : FormData)
  | Previous
  | SubmitAnother.

Section Controller.

Variable stepTable : list Step.

Definition isFirstStep (s : HookState) : bool := currentStep s =? 0.

(** [steps.length - 1] *)
Definition lastIndex : Z := Z.of_nat (length stepTable) - 1.

Definition isLastStep (s : HookState) : bool := currentStep s =? lastIndex.

(** Returns the schema for the current step: [stepSchemas[currentStep]]. *)
Definition getCurrentStepSchema (s : HookState) : option Schema :=
  index stepSchemas (currentStep s).

(** Go to next step. *)
Definition goToNextStep (s : HookState) : list Effect :=
  if negb (isLastStep s)
  then [SetCurrentStep (Updater (λ prev, prev + 1))]
  else [].

(** Go to previous step. *)
Definition goToPreviousStep (s : HookState) : list Effect :=
  if negb (isFirstStep s)
  then [SetCurrentStep (Updater (λ prev, prev - 1))]
  else [].

(** Merge and update form data. *)
Definition updateFormData (newData : FormData) : list Effect :=
  [SetFormData (Updater (λ prev, spread prev newData))].

(** Handle final submission. *)
Definition submitForm (data : FormData) : list Effect :=
  [ConsoleLog "Final submitted data:" data; SetIsSubmitted (Value true)].

(** Reset the form entirely. *)
Definition resetForm : list Effect :=
  [SetFormData (Value ∅); SetCurrentStep (Value 0);
   SetIsSubmitted (Value false)].

Definition call (s : HookState) (c : Command) : list Effect :=
  match c with
  | GoToNextStep => goToNextStep s
  | GoToPreviousStep => goToPreviousStep s
  | UpdateFormData newData => updateFormData newData
  | SubmitForm data => submitForm data
  | ResetForm => resetForm
  end.

(** One call from a render, followed by the re-render. *)
Definition dispatch (s : HookState) (c : Command) : HookState :=
  flush (call s c) s.

Definition run (cs : list Command) (s : HookState) : HookState :=
  fold_left dispatch cs s.

(** *** The orchestrating component *)

(** [onNext]: stop when [trigger()] reports invalid input; otherwise merge
    the step's data into the snapshot's [formData], store it, and submit on
    the last step or move forward.  ([submitForm] sits in a [try] block; it
    throws nothing.) *)
Definition onNext (s : HookState) (isValid : bool) (data : FormData)
  : list Effect :=
  if negb isValid then []
  else
    let updatedData := spread (formData s) data in
    updateFormData updatedData ++
    (if isLastStep s then submitForm updatedData else goToNextStep s).

(** [onPrevious]: no validation when going backwards. *)
Definition onPrevious (s : HookState) : list Effect := goToPreviousStep s.

Definition handler (s : HookState) (ev : Event) : list Effect :=
  match ev with
  | Next isValid data => onNext s isValid data
  | Previous => onPrevious s
  | SubmitAnother => resetForm
  end.

Definition handle (s : HookState) (ev : Event) : HookState :=
  flush (handler s ev) s.

(** What the component renders: the success card with its single button
    when [isSubmitted], otherwise the form with a Previous button that is
    disabled on the first step and a Next/Submit button. *)
Definition rendered (s : HookState) (ev : Event) : bool :=
  match ev with
  | Next _ _ => negb (isSubmitted s)
  | Previous => negb (isSubmitted s) && negb (isFirstStep s)
  | SubmitAnother => isSubmitted s
  end.

Definition uiStep (s : HookState) (ev : Event) : option HookState :=
  if rendered s ev then Some (handle s ev) else None.

Fixpoint uiRun (s : HookState) (evs : list Event) : option HookState :=
  match evs with
  | [] => Some s
  | ev :: rest =>
      match uiStep s ev with
      | Some s' => uiRun s' rest
      | None => None
      end
  end.

(** Several calls made from one render: each reads the snapshot [s] of
    that render, the queues follow each other in call order, and React
    applies them all before the next render. *)
Definition batch (s : HookState) (cs : list Command) : HookState :=
  flush (flat_map (call s) cs) s.

(** Several clicks handled before the next render: the handlers all belong
    to the render of [s]. *)
Definition handleAll (s : HookState) (evs : list Event) : HookState :=
  flush (flat_map (handler s) evs) s.

(** The calls a handler makes. *)
Definition commandsOf (s : HookState) (ev : Event) : list Command :=
  match ev with
  | Next true data =>
      [UpdateFormData (spread (formData s) data);
       if isLastStep s then SubmitForm (spread (formData s) data)
       else GoToNextStep]
  | Next false _ => []
  | Previous => [GoToPreviousStep]
  | SubmitAnother => [ResetForm]
  end.

(** States the controller reaches: the state at construction, and from a
    state whatever the calls made from its render lead to, be they one or
    several, made directly or by the handlers of the component. *)
Inductive reachable : HookState → Prop :=
  | reachable_initial : reachable initialState
  | reachable_render s cs : reachable s → reachable (batch s cs).

(** The states reached when every call, and every handler, runs in a
    render of its own: the component is rendered again between any two of
    them. *)
Inductive reachableOneAtATime : HookState → Prop :=
  | oneAtATime_initial : reachableOneAtATime initialState
  | oneAtATime_dispatch s c :
      reachableOneAtATime s → reachableOneAtATime (dispatch s c)
  | oneAtATime_handle s ev :
      reachableOneAtATime s → reachableOneAtATime (handle s ev).

End Controller.

(** Functional record updates, to state the transitions. *)
Definition withStep (s : HookState) (i : Z) : HookState :=
  {| currentStep := i; formData := formData s;
     isSubmitted := isSubmitted s |}.

Definition withData (s : HookState) (d : FormData) : HookState :=
  {| currentStep := currentStep s; formData := d;
     isSubmitted := isSubmitted s |}.

Definition withSubmitted (s : HookState) (b : bool) : HookState :=
  {| currentStep := currentStep s; formData := formData s;
     isSubmitted := b |}.

(** How many [Next] clicks of a list passed validation. *)
Definition isValidNext (ev : Event) : bool :=
  match ev with
  | Next true _ => true
  | _ => false
  end.

Fixpoint validNexts (evs : list Event) : nat :=
  match evs with
  | [] => 0%nat
  | ev :: rest => ((if isValidNext ev then 1 else 0) + validNexts rest)%nat
  end.

(** ** The scenario data *)

Definition personalFields : FormData :=
  {[ "firstName" := VString "A"; "lastName" := VString "B";
     "email" := VString "a@b.com"; "phone" := VString "01234567890" ]}%string.

Definition professionalFields : FormData :=
  {[ "company" := VString "X"; "position" := VString "Y";
     "experience" := VString "0-2"; "industry" := VString "Z" ]}%string.

Definition billingFields : FormData :=
  {[ "cardNumber" := VString "1234567812345678";
     "cardHolder" := VString "A B";
     "expiryDate" := VString "1225"; "cvv" := VString "123" ]}%string.

(** ** Invariants and named statements *)

(** [currentStep] is an index of the step table. *)
Definition inRange (stepTable : list Step) (s : HookState) : Prop :=
  0 ≤ currentStep s ≤ lastIndex stepTable.

(** What holds of the state of the rendered component after a list of user
    actions of which [n] were validated [Next] clicks. *)
Definition uiInvariant (stepTable : list Step) (s : HookState) (n : nat)
  : Prop :=
  0 ≤ currentStep s
  ∧ currentStep s + (if isSubmitted s then 1 else 0) ≤ Z.of_nat n
  ∧ (isSubmitted s = true → currentStep s = lastIndex stepTable).

(** The 3-step scenario, one state per call. *)
Definition afterMerge1 : HookState :=
  dispatch steps initialState (UpdateFormData personalFields).
Definition afterAdvance1 : HookState := dispatch steps afterMerge1 GoToNextStep.
Definition afterRetreat : HookState :=
  dispatch steps afterAdvance1 GoToPreviousStep.
Definition afterAdvance2 : HookState := dispatch steps afterRetreat GoToNextStep.
Definition afterMerge2 : HookState :=
  dispatch steps afterAdvance2 (UpdateFormData professionalFields).
Definition afterAdvance3 : HookState := dispatch steps afterMerge2 GoToNextStep.
Definition afterSubmit : HookState :=
  dispatch steps afterAdvance3 (SubmitForm billingFields).
Definition afterReset : HookState := dispatch steps afterSubmit ResetForm.

(** Two validated clicks on Next, both handled before the form is rendered
    again, on the second step. *)
Definition twoClicks : list Event :=
  [Next true professionalFields; Next true professionalFields].
Definition afterTwoClicks : HookState := handleAll steps afterAdvance1 twoClicks.

(** The checks of the scenario, with the number of keys expected after the
    submit left open. *)
Definition scenarioChecks (keysAfterSubmit : nat) : Prop :=
  currentStep afterAdvance1 = 1
  ∧ formData afterAdvance1 = personalFields
  ∧ size (formData afterAdvance1) = 4%nat
  ∧ currentStep afterRetreat = 0
  ∧ formData afterRetreat = formData afterAdvance1
  ∧ size (formData afterRetreat) = 4%nat
  ∧ currentStep afterAdvance3 = 2
  ∧ size (formData afterAdvance3) = 8%nat
  ∧ isSubmitted afterSubmit = true
  ∧ size (formData afterSubmit) = keysAfterSubmit
  ∧ currentStep afterReset = 0
  ∧ formData afterReset = ∅
  ∧ isSubmitted afterReset = false.

(** The same walk through the component's handlers, where the data of a step
    reaches [updateFormData] before [submitForm] or [goToNextStep] runs. *)
Definition scenarioEvents : list Event :=
  [Next true personalFields; Previous; Next true personalFields;
   Next true professionalFields; Next true billingFields].


(** [submitForm] read as a merge followed by the flag: it would leave the
    [formData] that [updateFormData final] leaves, with [isSubmitted] set. *)
Definition submitMerges (stepTable : list Step) (s : HookState)
    (final : FormData) : Prop :=
  formData (dispatch stepTable s (SubmitForm final)) =
    formData (dispatch stepTable s (UpdateFormData final))
  ∧ isSubmitted (dispatch stepTable s (SubmitForm final)) = true.

(** ** The progress indicator ([components/progress-steps.tsx]) *)

Inductive Tone : Type := Primary | Gray.

Inductive Glyph : Type :=
  | CheckMark
  | StepIcon (i : Icon).

(** What [ProgressSteps] renders for one step: the circle with its colour
    and content, the name below it, and the connecting line, if any, with
    its colour. *)
Record ProgressItem : Type := mkItem {
  itemKey : string;
  circle : Tone;
  glyph : Glyph;
  itemName : string;
  connector : option Tone
}.

(** The body of the [steps.map((step, index) => ...)] callback; [total] is
    [steps.length]. *)
Definition progressItem (currentStep total : Z) (index : nat) (step : Step)
  : ProgressItem :=
  let isCompleted := Z.of_nat index <? currentStep in
  let isCurrent := Z.of_nat index =? currentStep in
  {| itemKey := id step;
     circle := if isCompleted then Primary
               else if isCurrent then Primary else Gray;
     glyph := if isCompleted then CheckMark else StepIcon (icon step);
     itemName := name step;
     connector := if Z.of_nat index <? total - 1
                  then Some (if isCompleted then Primary else Gray)
                  else None |}.

Definition progressSteps (currentStep : Z) (stepTable : list Step)
  : list ProgressItem :=
  imap (progressItem currentStep (Z.of_nat (length stepTable))) stepTable.

(** ** The step components ([components/steps.tsx]) and the rendered form *)

Inductive StepComponent : Type :=
  | PersonalInfoStep
  | ProfessionalInfoStep
  | BillingInfoStep.




(** The form card of [MultiStepForm]: the progress indicator, the step
    components the three [currentStep === i && ...] lines render, and the
    two buttons. *)
Record FormCard : Type := mkCard {
  progress : list ProgressItem;
  body : list StepComponent;
  previousDisabled : bool;
  nextLabel : string;
  nextChevron : bool
}.

Inductive Screen : Type :=
  | SuccessCard
  | Form (card : FormCard).

Definition render (stepTable : list Step) (s : HookState) : Screen :=
  if isSubmitted s then SuccessCard
  else
    Form
      {| progress := progressSteps (currentStep s) stepTable;
         body :=
           (if currentStep s =? 0 then [PersonalInfoStep] else []) ++
           (if currentStep s =? 1 then [ProfessionalInfoStep] else []) ++
           (if currentStep s =? 2 then [BillingInfoStep] else []);
         previousDisabled := isFirstStep s;
         nextLabel := if isLastStep stepTable s then "Submit" else "Next";
         nextChevron := negb (isLastStep stepTable s) |}.


(** ** [useToggle] ([Custom Hook/src/hooks/useToggle.ts]) *)

Module UseToggle.

(** The memoised [toggle]: it reads no snapshot, it only queues
    [setValue((prev) => !prev)]. *)
Definition toggle : list (SetStateAction bool) := [Updater negb].

Definition flush (queue : list (SetStateAction bool)) (value : bool) : bool :=
  fold_left (λ v a, resolve a v) queue value.

(** [n] calls of [toggle], queued one after the other. *)
Fixpoint toggles (n : nat) : list (SetStateAction bool) :=
  match n with
  | O => []
  | S n' => toggle ++ toggles n'
  end.

End UseToggle.

(** ** [useForm] ([hooks/useForm.ts]) *)

Module UseForm.

Section Hook.

(** [V] stands for the values of the record ([unknown]); [str] embeds the
    strings an input element reports. *)
Context {V : Type}.
Variable str : string → V.
Variable initialValues : gmap string V.
(** Whether the optional [callback] was passed. *)
Variable hasCallback : bool.

Inductive Effect : Type :=
  | SetValues (a : SetStateAction (gmap string V))
  | PreventDefault
  | Callback (values : gmap string V).

Inductive Command : Type :=
  | HandleChange (name value : string)
  | HandleSubmit
  | ResetForm.

(** [{ ...(prev ?? initialValues), [name]: value }]; the cell has type [T]
    and never holds [null] or [undefined], so [prev ?? initialValues] is
    [prev]. *)
Definition handleChange (name value : string) : list Effect :=
  [SetValues (Updater (λ prev, <[name := str value]> prev))].

Definition handleSubmit (values : gmap string V) : list Effect :=
  PreventDefault :: (if hasCallback then [Callback values] else []).

Definition resetForm : list Effect := [SetValues (Value initialValues)].

Definition call (values : gmap string V) (c : Command) : list Effect :=
  match c with
  | HandleChange name value => handleChange name value
  | HandleSubmit => handleSubmit values
  | ResetForm => resetForm
  end.

Definition applyEffect (values : gmap string V) (e : Effect) : gmap string V :=
  match e with
  | SetValues a => resolve a values
  | PreventDefault => values
  | Callback _ => values
  end.

Definition flush (queue : list Effect) (values : gmap string V)
  : gmap string V :=
  fold_left applyEffect queue values.

Definition dispatch (values : gmap string V) (c : Command) : gmap string V :=
  flush (call values c) values.

Definition run (cs : list Command) (values : gmap string V) : gmap string V :=
  fold_left dispatch cs values.

(** The arguments [callback] was called with, in order. *)
Definition callbacks (queue : list Effect) : list (gmap string V) :=
  omap (λ e, match e with Callback values => Some values | _ => None end)
    queue.

End Hook.

End UseForm.

(** ** [useFetch] ([hooks/useFetch.ts]) and the [User] component *)

Module UseFetch.

Section Hook.

(** [D] stands for [TData]; [E] for what [fetch] or [res.json()] reject
    with (error objects).  [None] is [null]. *)
Context {D E : Type}.

Record State : Type := mkState {
  data : option D;
  error : option E;
  loading : bool
}.

Definition initialState : State :=
  {| data := None; error := None; loading := true |}.

(** How one run of [fetchData] ends: with the parsed body (which may be
    the JSON [null]) or with the value caught. *)
Inductive Outcome : Type :=
  | Resolved (json : option D)
  | Rejected (err : E).

(** What happens to the hook: the effect starts [fetchData] for a [url],
    or a started run settles. *)
Inductive Event : Type :=
  | Start (url : string)
  | Settle (o : Outcome).

Inductive Effect : Type :=
  | SetData (json : option D)
  | SetError (err : E)
  | SetLoading (b : bool).

(** The [try] / [catch] / [finally] of [fetchData] once the awaits are
    over. *)
Definition settle (o : Outcome) : list Effect :=
  match o with
  | Resolved json => [SetData json]
  | Rejected err => [SetError err]
  end ++ [SetLoading false].

Definition effects (ev : Event) : list Effect :=
  match ev with
  | Start _ => []
  | Settle o => settle o
  end.

Definition applyEffect (s : State) (e : Effect) : State :=
  match e with
  | SetData json => {| data := json; error := error s; loading := loading s |}
  | SetError err =>
      {| data := data s; error := Some err; loading := loading s |}
  | SetLoading b => {| data := data s; error := error s; loading := b |}
  end.

Definition handle (s : State) (ev : Event) : State :=
  fold_left applyEffect (effects ev) s.

Definition run (evs : list Event) (s : State) : State :=
  fold_left handle evs s.

(** The last value of a list that [pick] selects. *)
Definition lastOf {A B : Type} (pick : A → option B) (l : list A) : option B :=
  last (omap pick l).

Definition rejection (ev : Event) : option E :=
  match ev with
  | Settle (Rejected err) => Some err
  | _ => None
  end.

Definition resolution (ev : Event) : option (option D) :=
  match ev with
  | Settle (Resolved json) => Some json
  | _ => None
  end.

Definition settled (ev : Event) : bool :=
  match ev with
  | Settle _ => true
  | Start _ => false
  end.

End Hook.

(** The [User] component: [data] is [{ name: string }]. *)
Inductive UserView : Type :=
  | Loading
  | ErrorOccurred
  | UserFound (shownName : string).

(** [if (error)]: [null] is falsy, and a caught value is as truthy as
    [truthy] says. *)
Definition isTruthy {E : Type} (truthy : E → bool) (error : option E) : bool :=
  match error with
  | Some err => truthy err
  | None => false
  end.

(** The truthiness of a string: every string but the empty one. *)
Definition truthyString (s : string) : bool := negb (String.eqb s "").

Definition userView {E : Type} (truthy : E → bool) (s : @State string E)
  : UserView :=
  if loading s then Loading
  else if isTruthy truthy (error s) then ErrorOccurred
  else UserFound (default "Unknown"%string (data s)).

End UseFetch.

(** ** [AdvancedForm]: checkbox, radio and select in one handler *)

Module AdvancedForm.

Inductive Val : Type :=
  | VStr (s : string)
  | VBool (b : bool).

(** What the handler reads of [e.target]. *)
Record Target : Type := mkTarget {
  name : string;
  type : string;
  value : string;
  checked : bool
}.

Definition initialFormData : gmap string Val :=
  {[ "gender" := VStr ""; "country" := VStr "Bangladesh";
     "agree" := VBool false ]}%string.

Definition handleOnChange (target : Target)
  : SetStateAction (gmap string Val) :=
  let value :=
    if String.eqb (type target) "checkbox"
    then VBool (checked target)
    else VStr (value target) in
  Updater (λ prev, <[name target := value]> prev).

Definition change (formData : gmap string Val) (target : Target)
  : gmap string Val :=
  resolve (handleOnChange target) formData.

(** The elements the component renders, as targets of a change event: the
    two radio buttons, the select on one of its three options, and the
    checkbox (whose [value] attribute is not set) in either state. *)
Inductive Rendered : Target → Prop :=
  | radioMale b : Rendered (mkTarget "gender" "radio" "Male" b)
  | radioFemale b : Rendered (mkTarget "gender" "radio" "Female" b)
  | selectCountry v :
      v ∈ ["Bangladesh"; "USA"; "UK"]%string →
      Rendered (mkTarget "country" "select-one" v false)
  | checkboxAgree b : Rendered (mkTarget "agree" "checkbox" "on" b).

(** The values the three controlled inputs can show. *)
Definition wellTyped (formData : gmap string Val) : Prop :=
  dom formData = {[ "gender"; "country"; "agree" ]}%string
  ∧ (∃ g, formData !! "gender"%string = Some (VStr g)
          ∧ g ∈ [""; "Male"; "Female"]%string)
  ∧ (∃ c, formData !! "country"%string = Some (VStr c)
          ∧ c ∈ ["Bangladesh"; "USA"; "UK"]%string)
  ∧ (∃ b, formData !! "agree"%string = Some (VBool b)).

End AdvancedForm.

(** ** Equations of the transitions *)

Section Transitions.

Variable stepTable : list Step.
Implicit Types (s : HookState) (data newData : FormData).

Lemma withStep_same s : withStep s (currentStep s) = s.
Proof. by destruct s. Qed.

Lemma isLastStep_true s :
  isLastStep stepTable s = true ↔ currentStep s = lastIndex stepTable.
Proof. apply Z.eqb_eq. Qed.

Lemma isLastStep_false s :
  isLastStep stepTable s = false ↔ currentStep s ≠ lastIndex stepTable.
Proof. apply Z.eqb_neq. Qed.

Lemma isFirstStep_true s : isFirstStep s = true ↔ currentStep s = 0.
Proof. apply Z.eqb_eq. Qed.

Lemma isFirstStep_false s : isFirstStep s = false ↔ currentStep s ≠ 0.
Proof. apply Z.eqb_neq. Qed.

Lemma dispatch_next s :
  dispatch stepTable s GoToNextStep =
  if isLastStep stepTable s then s else withStep s (currentStep s + 1).
Proof.
  unfold dispatch, call, goToNextStep. by destruct (isLastStep stepTable s).
Qed.

Lemma dispatch_previous s :
  dispatch stepTable s GoToPreviousStep =
  if isFirstStep s then s else withStep s (currentStep s - 1).
Proof.
  unfold dispatch, call, goToPreviousStep. by destruct (isFirstStep s).
Qed.

Lemma dispatch_update s newData :
  dispatch stepTable s (UpdateFormData newData) =
  withData s (spread (formData s) newData).
Proof. reflexivity. Qed.

Lemma dispatch_submit s data :
  dispatch stepTable s (SubmitForm data) = withSubmitted s true.
Proof. reflexivity. Qed.

Lemma dispatch_reset s : dispatch stepTable s ResetForm = initialState.
Proof. reflexivity. Qed.

Lemma spread_lookup (prev newData : FormData) (k : string) :
  spread prev newData !! k =
  match newData !! k with Some v => Some v | None => prev !! k end.
Proof.
  unfold spread. rewrite lookup_union.
  destruct (newData !! k), (prev !! k); reflexivity.
Qed.

Lemma spread_twice (prev newData : FormData) :
  spread (spread prev newData) newData = spread prev newData.
Proof.
  apply map_eq; intros k. rewrite !spread_lookup.
  by destruct (newData !! k).
Qed.

Lemma spread_of_spread (prev newData : FormData) :
  spread prev (spread prev newData) = spread prev newData.
Proof.
  apply map_eq; intros k. rewrite !spread_lookup.
  by destruct (newData !! k), (prev !! k).
Qed.

Lemma handle_next_invalid s data : handle stepTable s (Next false data) = s.
Proof. reflexivity. Qed.

Lemma handle_next_valid s data :
  handle stepTable s (Next true data) =
  if isLastStep stepTable s
  then withSubmitted (withData s (spread (formData s) data)) true
  else withStep (withData s (spread (formData s) data)) (currentStep s + 1).
Proof.
  unfold handle, handler, onNext, goToNextStep; simpl.
  destruct (isLastStep stepTable s); simpl;
    unfold withSubmitted, withStep, withData; simpl;
    by rewrite spread_of_spread.
Qed.

Lemma handle_previous s :
  handle stepTable s Previous = dispatch stepTable s GoToPreviousStep.
Proof. reflexivity. Qed.

Lemma handle_reset s : handle stepTable s SubmitAnother = initialState.
Proof. reflexivity. Qed.

End Transitions.

(** ** The step index *)

Section StepIndex.

Variable stepTable : list Step.
Hypothesis nonEmpty : (1 ≤ length stepTable)%nat.

Lemma initial_inRange : inRange stepTable initialState.
Proof using nonEmpty. unfold inRange, lastIndex; simpl. lia. Qed.

Lemma dispatch_inRange s c :
  inRange stepTable s → inRange stepTable (dispatch stepTable s c).
Proof using nonEmpty.
  unfold inRange. intros Hs. destruct c.
  - rewrite dispatch_next.
    destruct (isLastStep stepTable s) eqn:E; [done|].
    apply isLastStep_false in E. simpl. lia.
  - rewrite dispatch_previous.
    destruct (isFirstStep s) eqn:E; [done|].
    apply isFirstStep_false in E. simpl. lia.
  - done.
  - done.
  - rewrite dispatch_reset. apply initial_inRange.
Qed.

Lemma handle_inRange s ev :
  inRange stepTable s → inRange stepTable (handle stepTable s ev).
Proof using nonEmpty.
  intros Hs. destruct ev as [[] data | |].
  - rewrite handle_next_valid. unfold inRange in *.
    destruct (isLastStep stepTable s) eqn:E; [done|].
    apply isLastStep_false in E. simpl. lia.
  - by rewrite handle_next_invalid.
  - rewrite handle_previous. by apply dispatch_inRange.
  - rewrite handle_reset. apply initial_inRange.
Qed.

Lemma run_inRange cs s :
  inRange stepTable s → inRange stepTable (run stepTable cs s).
Proof using nonEmpty.
  revert s. induction cs as [|c cs IH]; intros s Hs; [done|].
  simpl. apply IH. by apply dispatch_inRange.
Qed.

Lemma oneAtATime_inRange s :
  reachableOneAtATime stepTable s → inRange stepTable s.
Proof using nonEmpty.
  induction 1 as [|s c _ IH|s ev _ IH].
  - apply initial_inRange.
  - by apply dispatch_inRange.
  - by apply handle_inRange.
Qed.

End StepIndex.

(** ** The rendered component as a step relation *)

Section Orchestration.

Variable stepTable : list Step.
Implicit Types (s : HookState) (ev : Event) (evs : list Event).

Lemma uiStep_Some s ev s' :
  uiStep stepTable s ev = Some s' ↔
  rendered s ev = true ∧ s' = handle stepTable s ev.
Proof.
  unfold uiStep. destruct (rendered s ev); split.
  - by intros [= <-].
  - by intros [_ ->].
  - done.
  - by intros [? _].
Qed.

Lemma uiStep_submits s ev s' :
  uiStep stepTable s ev = Some s' →
  isSubmitted s = false → isSubmitted s' = true →
  currentStep s = lastIndex stepTable ∧
  ∃ data, ev = Next true data ∧
          s' = withSubmitted (withData s (spread (formData s) data)) true.
Proof.
  intros [Hr ->]%uiStep_Some Hs Hs'. destruct ev as [[] data | |].
  - rewrite handle_next_valid in Hs' |- *.
    destruct (isLastStep stepTable s) eqn:E.
    + apply isLastStep_true in E. eauto.
    + simpl in Hs'. congruence.
  - rewrite handle_next_invalid in Hs'. congruence.
  - rewrite handle_previous, dispatch_previous in Hs'.
    destruct (isFirstStep s); simpl in Hs'; congruence.
  - rewrite handle_reset in Hs'. discriminate.
Qed.

Lemma uiStep_from_submitted s ev s' :
  uiStep stepTable s ev = Some s' → isSubmitted s = true →
  ev = SubmitAnother ∧ s' = initialState.
Proof.
  intros [Hr ->]%uiStep_Some Hs.
  destruct ev; simpl in Hr; rewrite Hs in Hr; try discriminate.
  by rewrite handle_reset.
Qed.

Lemma handle_keeps_submitted s ev :
  isSubmitted s = true → isSubmitted (handle stepTable s ev) = false →
  ev = SubmitAnother.
Proof.
  intros Hs Hs'. destruct ev as [[] data | |]; [| | |done].
  - rewrite handle_next_valid in Hs'.
    destruct (isLastStep stepTable s); simpl in Hs'; congruence.
  - rewrite handle_next_invalid in Hs'. congruence.
  - rewrite handle_previous, dispatch_previous in Hs'.
    destruct (isFirstStep s); simpl in Hs'; congruence.
Qed.

Lemma uiStep_invariant s ev s' n :
  uiStep stepTable s ev = Some s' → uiInvariant stepTable s n →
  uiInvariant stepTable s' (n + (if isValidNext ev then 1 else 0)).
Proof.
  intros [Hr ->]%uiStep_Some (H0 & Hn & Hsub). unfold uiInvariant.
  destruct ev as [[] data | |]; simpl in Hr; cbn [isValidNext].
  - apply negb_true_iff in Hr. rewrite Hr in Hn; simpl in Hn.
    rewrite handle_next_valid.
    destruct (isLastStep stepTable s) eqn:E; simpl.
    + apply isLastStep_true in E. repeat split; [done|lia|done].
    + rewrite Hr. repeat split; [lia|lia|discriminate].
  - rewrite handle_next_invalid. repeat split; [done|lia|done].
  - apply andb_true_iff in Hr as [Hr1 Hr2].
    apply negb_true_iff in Hr1. apply negb_true_iff in Hr2.
    rewrite Hr1 in Hn; simpl in Hn.
    rewrite handle_previous, dispatch_previous, Hr2; simpl.
    apply isFirstStep_false in Hr2.
    rewrite Hr1. repeat split; [lia|lia|discriminate].
  - rewrite handle_reset; simpl. repeat split; [done|lia|discriminate].
Qed.

Lemma uiRun_invariant evs s s' n :
  uiRun stepTable s evs = Some s' → uiInvariant stepTable s n →
  uiInvariant stepTable s' (n + validNexts evs).
Proof.
  revert s n. induction evs as [|ev evs IH]; intros s n Hrun Hinv; simpl in *.
  - injection Hrun as <-. by rewrite Nat.add_0_r.
  - destruct (uiStep stepTable s ev) as [s1|] eqn:E; [|done].
    rewrite Nat.add_assoc. eapply IH; [done|].
    by eapply uiStep_invariant.
Qed.

Lemma initial_uiInvariant : uiInvariant stepTable initialState 0.
Proof. unfold uiInvariant; simpl. repeat split; [done|done|discriminate]. Qed.

Lemma uiRun_snoc evs ev s :
  uiRun stepTable s (evs ++ [ev]) =
  match uiRun stepTable s evs with
  | Some s1 => uiStep stepTable s1 ev
  | None => None
  end.
Proof.
  revert s. induction evs as [|e evs IH]; intros s; simpl.
  - by destruct (uiStep stepTable s ev).
  - destruct (uiStep stepTable s e); [apply IH|done].
Qed.

Lemma uiRun_submitted_last evs s :
  uiRun stepTable initialState evs = Some s → isSubmitted s = true →
  ∃ evs0 data s0,
    evs = evs0 ++ [Next true data]
    ∧ uiRun stepTable initialState evs0 = Some s0
    ∧ isSubmitted s0 = false
    ∧ currentStep s0 = lastIndex stepTable
    ∧ s = withSubmitted (withData s0 (spread (formData s0) data)) true.
Proof.
  destruct evs as [|ev evs _] using rev_ind; intros Hrun Hs.
  - injection Hrun as <-. discriminate.
  - rewrite uiRun_snoc in Hrun.
    destruct (uiRun stepTable initialState evs) as [s0|] eqn:E; [|done].
    destruct (isSubmitted s0) eqn:E0.
    + destruct (uiStep_from_submitted _ _ _ Hrun E0) as [_ ->]. discriminate.
    + destruct (uiStep_submits _ _ _ Hrun E0 Hs) as (Hlast & data & -> & ->).
      by exists evs, data, s0.
Qed.

End Orchestration.

(** ** Calls that share a render *)

Section SharedRender.

Variable stepTable : list Step.
Implicit Types (s : HookState) (c : Command) (ev : Event).

Lemma batch_one s c : batch stepTable s [c] = dispatch stepTable s c.
Proof. unfold batch, dispatch. simpl. by rewrite app_nil_r. Qed.

Lemma handler_commandsOf s ev :
  handler stepTable s ev
    = flat_map (call stepTable s) (commandsOf stepTable s ev).
Proof.
  destruct ev as [[] data | |]; simpl.
  - unfold onNext; simpl.
    destruct (isLastStep stepTable s); simpl; by rewrite ?app_nil_r.
  - reflexivity.
  - unfold onPrevious. by rewrite ?app_nil_r.
  - reflexivity.
Qed.

Lemma handleAll_batch s (evs : list Event) :
  handleAll stepTable s evs
    = batch stepTable s (flat_map (commandsOf stepTable s) evs).
Proof.
  unfold handleAll, batch. f_equal.
  induction evs as [|ev evs IH]; [reflexivity|].
  simpl. by rewrite flat_map_app, handler_commandsOf, IH.
Qed.

Lemma handleAll_one s ev : handleAll stepTable s [ev] = handle stepTable s ev.
Proof. unfold handleAll, handle. simpl. by rewrite app_nil_r. Qed.

Lemma reachable_dispatch s c :
  reachable stepTable s → reachable stepTable (dispatch stepTable s c).
Proof. intros Hs. rewrite <- batch_one. by apply reachable_render. Qed.

Lemma reachable_handleAll s (evs : list Event) :
  reachable stepTable s → reachable stepTable (handleAll stepTable s evs).
Proof. intros Hs. rewrite handleAll_batch. by apply reachable_render. Qed.

Lemma reachable_handle s ev :
  reachable stepTable s → reachable stepTable (handle stepTable s ev).
Proof. intros Hs. rewrite <- handleAll_one. by apply reachable_handleAll. Qed.

Lemma oneAtATime_reachable s :
  reachableOneAtATime stepTable s → reachable stepTable s.
Proof.
  induction 1 as [|s c _ IH|s ev _ IH].
  - apply reachable_initial.
  - by apply reachable_dispatch.
  - by apply reachable_handle.
Qed.

Lemma flush_next_calls (s0 : HookState) (n : nat) :
  isLastStep stepTable s0 = false →
  ∀ s, flush (flat_map (call stepTable s0) (replicate n GoToNextStep)) s
       = withStep s (currentStep s + Z.of_nat n).
Proof.
  intros Hopen. induction n as [|n IH]; intros s.
  - simpl. by rewrite Z.add_0_r, withStep_same.
  - cbn [replicate flat_map call]. unfold goToNextStep at 1.
    rewrite Hopen. cbn [negb app flush fold_left]. fold (flush).
    rewrite IH. unfold withStep; simpl. f_equal. lia.
Qed.

Lemma flush_previous_calls (s0 : HookState) (n : nat) :
  isFirstStep s0 = false →
  ∀ s, flush (flat_map (call stepTable s0) (replicate n GoToPreviousStep)) s
       = withStep s (currentStep s - Z.of_nat n).
Proof.
  intros Hopen. induction n as [|n IH]; intros s.
  - simpl. by rewrite Z.sub_0_r, withStep_same.
  - cbn [replicate flat_map call]. unfold goToPreviousStep at 1.
    rewrite Hopen. cbn [negb app flush fold_left]. fold (flush).
    rewrite IH. unfold withStep; simpl. f_equal. lia.
Qed.

Lemma batch_next_calls s (n : nat) :
  batch stepTable s (replicate n GoToNextStep)
    = if isLastStep stepTable s then s
      else withStep s (currentStep s + Z.of_nat n).
Proof.
  unfold batch. destruct (isLastStep stepTable s) eqn:E.
  - induction n as [|n IH]; [reflexivity|].
    cbn [replicate flat_map call]. unfold goToNextStep at 1.
    rewrite E. exact IH.
  - by apply flush_next_calls.
Qed.

Lemma batch_previous_calls s (n : nat) :
  batch stepTable s (replicate n GoToPreviousStep)
    = if isFirstStep s then s
      else withStep s (currentStep s - Z.of_nat n).
Proof.
  unfold batch. destruct (isFirstStep s) eqn:E.
  - induction n as [|n IH]; [reflexivity|].
    cbn [replicate flat_map call]. unfold goToPreviousStep at 1.
    rewrite E. exact IH.
  - by apply flush_previous_calls.
Qed.

Lemma getCurrentStepSchema_None s :
  getCurrentStepSchema s = None
  ↔ currentStep s < 0 ∨ Z.of_nat (length stepSchemas) ≤ currentStep s.
Proof.
  unfold getCurrentStepSchema, index.
  destruct (Z.ltb_spec (currentStep s) 0) as [Hneg|Hpos].
  - split; [by left|done].
  - rewrite lookup_ge_None. lia.
Qed.

End SharedRender.

(** The guards read the snapshot of the render: two calls issued from the
    same render are both queued and both applied. *)
Remark same_render_calls_share_the_guard :
  currentStep
    (flush (goToNextStep steps (withStep initialState 1) ++
            goToNextStep steps (withStep initialState 1))
       (withStep initialState 1)) = 3.
Proof. reflexivity. Qed.

(** ** The claims *)

(** C2, where the code leaves the range.  The guards of [goToNextStep] and
    [goToPreviousStep] are those of the render, the updaters work on the
    latest value: [n] calls from one render whose guard is open move
    [currentStep] by [n], whatever the last index.  With the three steps,
    three calls of [goToNextStep] from the first render end on 3, two calls
    of [goToPreviousStep] from the second step end on -1, and two validated
    clicks on Next, both on a button of the render of the second step, end
    on 3. *)
Theorem currentStep_leaves_range_in_one_render :
  (∀ (stepTable : list Step) (s : HookState) (n : nat),
     currentStep (batch stepTable s (replicate n GoToNextStep))
     = if isLastStep stepTable s then currentStep s
       else currentStep s + Z.of_nat n)
  ∧ (∀ (stepTable : list Step) (s : HookState) (n : nat),
       currentStep (batch stepTable s (replicate n GoToPreviousStep))
       = if isFirstStep s then currentStep s
         else currentStep s - Z.of_nat n)
  ∧ lastIndex steps = 2
  ∧ reachable steps (batch steps initialState (replicate 3 GoToNextStep))
  ∧ currentStep (batch steps initialState (replicate 3 GoToNextStep)) = 3
  ∧ reachable steps (batch steps afterAdvance1 (replicate 2 GoToPreviousStep))
  ∧ currentStep (batch steps afterAdvance1 (replicate 2 GoToPreviousStep))
    = -1
  ∧ Forall (λ ev, rendered afterAdvance1 ev = true) twoClicks
  ∧ reachable steps afterTwoClicks
  ∧ currentStep afterTwoClicks = 3
  ∧ isSubmitted afterTwoClicks = false.
Proof.
  assert (Ha : reachable steps afterAdvance1).
  { unfold afterAdvance1, afterMerge1.
    do 2 apply reachable_dispatch. apply reachable_initial. }
  split.
  { intros stepTable s n. rewrite batch_next_calls.
    by destruct (isLastStep stepTable s). }
  split.
  { intros stepTable s n. rewrite batch_previous_calls.
    by destruct (isFirstStep s). }
  split; [reflexivity|].
  split; [apply reachable_render, reachable_initial|].
  split; [reflexivity|].
  split; [by apply reachable_render|].
  split; [reflexivity|].
  split; [unfold twoClicks; by repeat constructor|].
  split; [by apply reachable_handleAll|].
  split; reflexivity.
Qed.

(** C3. [goToPreviousStep] leaves [formData] and [isSubmitted] as they are,
    so every key of [formData] keeps its value; the same holds for the
    [onPrevious] handler. *)
Theorem goToPreviousStep_keeps_data (stepTable : list Step) (s : HookState) :
  formData (dispatch stepTable s GoToPreviousStep) = formData s ∧
  isSubmitted (dispatch stepTable s GoToPreviousStep) = isSubmitted s ∧
  (∀ k : string,
     formData (dispatch stepTable s GoToPreviousStep) !! k = formData s !! k) ∧
  formData (handle stepTable s Previous) = formData s ∧
  isSubmitted (handle stepTable s Previous) = isSubmitted s.
Proof.
  rewrite handle_previous, dispatch_previous.
  by destruct (isFirstStep s).
Qed.

(** C4. [resetForm] leads from any state to
    [{currentStep: 0, formData: {}, isSubmitted: false}], which is the state
    of the three [useState] cells at construction. *)
Theorem resetForm_restores_initial (stepTable : list Step) (s : HookState) :
  dispatch stepTable s ResetForm
    = {| currentStep := 0; formData := ∅; isSubmitted := false |} ∧
  initialState = {| currentStep := 0; formData := ∅; isSubmitted := false |} ∧
  handle stepTable s SubmitAnother = initialState.
Proof. done. Qed.

(** C5. [updateFormData p] replaces [formData] by the shallow merge: a key of
    [p] gets the value [p] gives it, any other key keeps its value, and the
    outcome is the same when the keys of [p] are first removed from
    [formData]; [currentStep] and [isSubmitted] are not touched. *)
Theorem updateFormData_shallow_merge
    (stepTable : list Step) (s : HookState) (p : FormData) :
  (∀ k : string,
     formData (dispatch stepTable s (UpdateFormData p)) !! k =
     match p !! k with Some v => Some v | None => formData s !! k end) ∧
  formData (dispatch stepTable (withData s (formData s ∖ p)) (UpdateFormData p))
    = formData (dispatch stepTable s (UpdateFormData p)) ∧
  currentStep (dispatch stepTable s (UpdateFormData p)) = currentStep s ∧
  isSubmitted (dispatch stepTable s (UpdateFormData p)) = isSubmitted s.
Proof.
  rewrite !dispatch_update; simpl. repeat split.
  - intros k. apply spread_lookup.
  - apply map_eq; intros k. rewrite !spread_lookup, lookup_difference.
    by destruct (p !! k).
Qed.

(** C6. Calling [updateFormData p] twice in a row leaves the state that one
    call leaves. *)
Theorem updateFormData_idempotent
    (stepTable : list Step) (s : HookState) (p : FormData) :
  dispatch stepTable (dispatch stepTable s (UpdateFormData p)) (UpdateFormData p)
    = dispatch stepTable s (UpdateFormData p).
Proof.
  rewrite !dispatch_update. unfold withData; simpl.
  by rewrite spread_twice.
Qed.

(** C10. [submitForm] changes [isSubmitted] only: [currentStep] and
    [formData] are the ones of the state it was called in, whatever its
    argument. *)
Theorem submitForm_frame
    (stepTable : list Step) (s : HookState) (data : FormData) :
  currentStep (dispatch stepTable s (SubmitForm data)) = currentStep s ∧
  formData (dispatch stepTable s (SubmitForm data)) = formData s ∧
  dispatch stepTable s (SubmitForm data) = withSubmitted s true.
Proof. done. Qed.

(** C1, as stated, fails: called in the initial state with the billing
    fields, [submitForm] leaves [formData] empty, where [updateFormData]
    leaves the four fields. *)
Lemma submitForm_does_not_merge :
  ¬ submitMerges steps initialState billingFields.
Proof.
  intros [Hdata _].
  apply (f_equal (λ m : FormData, m !! "cvv"%string)) in Hdata.
  vm_compute in Hdata. discriminate.
Qed.

(** C1, amended. [submitForm final] writes [final] to the console and sets
    [isSubmitted]; it leaves [formData] as it is.  The merge is the
    caller's: on the last step a validated [onNext final] leaves the
    [formData] that [updateFormData final] leaves, with [isSubmitted]
    set. *)
Theorem submitForm_sets_the_flag
    (stepTable : list Step) (s : HookState) (final : FormData) :
  submitForm final =
    [ConsoleLog "Final submitted data:" final; SetIsSubmitted (Value true)] ∧
  isSubmitted (dispatch stepTable s (SubmitForm final)) = true ∧
  formData (dispatch stepTable s (SubmitForm final)) = formData s ∧
  (isLastStep stepTable s = true →
   formData (handle stepTable s (Next true final)) =
     formData (dispatch stepTable s (UpdateFormData final)) ∧
   isSubmitted (handle stepTable s (Next true final)) = true).
Proof.
  split; [reflexivity|]. split; [reflexivity|]. split; [reflexivity|].
  intros Hlast. by rewrite handle_next_valid, Hlast.
Qed.

Lemma submitForm_sets_the_flag_witness :
  isLastStep steps afterAdvance3 = true ∧
  formData (handle steps afterAdvance3 (Next true billingFields)) =
    formData (dispatch steps afterAdvance3 (UpdateFormData billingFields)) ∧
  isSubmitted (handle steps afterAdvance3 (Next true billingFields)) = true.
Proof.
  assert (Hlast : isLastStep steps afterAdvance3 = true) by reflexivity.
  split; [exact Hlast|].
  apply (submitForm_sets_the_flag steps afterAdvance3 billingFields), Hlast.
Defined.

(** C7. In the rendered component [isSubmitted] turns true only through a
    validated [onNext] on the last index, which leaves the merged data; a
    run from the initial state that ends submitted ends with that click, on
    the last index, after at least as many validated [Next] clicks as there
    are steps; and from a submitted state the only action on offer is the
    reset, no handler but the reset clearing the flag. *)
Theorem submission_only_from_last_step (stepTable : list Step) :
  (∀ s ev s',
     uiStep stepTable s ev = Some s' →
     isSubmitted s = false → isSubmitted s' = true →
     currentStep s = lastIndex stepTable ∧
     ∃ data, ev = Next true data ∧
             s' = withSubmitted (withData s (spread (formData s) data)) true) ∧
  (∀ evs s,
     uiRun stepTable initialState evs = Some s → isSubmitted s = true →
     currentStep s = lastIndex stepTable ∧
     (length stepTable ≤ validNexts evs)%nat ∧
     ∃ evs0 data s0,
       evs = evs0 ++ [Next true data]
       ∧ uiRun stepTable initialState evs0 = Some s0
       ∧ isSubmitted s0 = false
       ∧ currentStep s0 = lastIndex stepTable
       ∧ s = withSubmitted (withData s0 (spread (formData s0) data)) true) ∧
  (∀ s ev s',
     uiStep stepTable s ev = Some s' → isSubmitted s = true →
     ev = SubmitAnother ∧ s' = initialState) ∧
  (∀ s ev,
     isSubmitted s = true → isSubmitted (handle stepTable s ev) = false →
     ev = SubmitAnother).
Proof.
  split; [apply uiStep_submits|].
  split; [|split; [apply uiStep_from_submitted|apply handle_keeps_submitted]].
  intros evs s Hrun Hs.
  pose proof (uiRun_invariant stepTable evs _ _ 0 Hrun
                (initial_uiInvariant stepTable)) as (H0 & Hn & Hlast).
  rewrite Hs in Hn. specialize (Hlast Hs).
  split; [done|]. split.
  - unfold lastIndex in Hlast. simpl in Hn. lia.
  - by apply uiRun_submitted_last.
Qed.

Lemma submission_only_from_last_step_witness :
  uiRun steps initialState scenarioEvents
    = Some (withSubmitted
              (withData afterAdvance3
                 (spread (formData afterAdvance3) billingFields)) true) ∧
  currentStep afterAdvance3 = lastIndex steps ∧
  (length steps ≤ validNexts scenarioEvents)%nat ∧
  uiStep steps (withSubmitted afterAdvance3 true) SubmitAnother
    = Some initialState ∧
  SubmitAnother = SubmitAnother.
Proof.
  destruct (submission_only_from_last_step steps)
    as (Hstep & Hrun & Hleave & Hflag).
  assert (Hev : uiRun steps initialState scenarioEvents
                = Some (withSubmitted
                          (withData afterAdvance3
                             (spread (formData afterAdvance3) billingFields))
                          true)) by (vm_compute; reflexivity).
  split; [exact Hev|].
  split.
  { apply (Hstep afterAdvance3 (Next true billingFields)
             (handle steps afterAdvance3 (Next true billingFields)));
      reflexivity. }
  split.
  { apply (Hrun scenarioEvents _ Hev). reflexivity. }
  split; [reflexivity|].
  apply (Hflag (withSubmitted afterAdvance3 true) SubmitAnother); reflexivity.
Defined.

(** C8, as stated, fails: after [submitForm] with the billing fields
    [formData] has 8 keys, not 12. *)
Lemma scenario_has_8_keys_after_submit : ¬ scenarioChecks 12.
Proof.
  unfold scenarioChecks. intros (_&_&_&_&_&_&_&_&_& Hsize &_).
  vm_compute in Hsize. discriminate.
Qed.

(** C8, amended. The scenario runs as described, except that [formData]
    still has its 8 keys after [submitForm]; it has the 12 keys when the
    billing fields go through [updateFormData] first, as they do in the
    component's [onNext].  The reset ends at step 0, with empty [formData]
    and [isSubmitted] false. *)
Theorem scenario_runs :
  scenarioChecks 8 ∧
  size (formData (dispatch steps
                    (dispatch steps afterAdvance3 (UpdateFormData billingFields))
                    (SubmitForm billingFields))) = 12%nat ∧
  (∃ s, uiRun steps initialState scenarioEvents = Some s
        ∧ isSubmitted s = true ∧ size (formData s) = 12%nat
        ∧ uiStep steps s SubmitAnother = Some initialState).
Proof.
  split; [|split].
  - unfold scenarioChecks. repeat split; vm_compute; reflexivity.
  - vm_compute. reflexivity.
  - eexists. split; [vm_compute; reflexivity|].
    repeat split; vm_compute; reflexivity.
Qed.

(** C9, where the lookup fails.  After two validated clicks on Next handled
    in the render of the second step, a state the form reaches,
    [currentStep] is 3: [stepSchemas[3]] and [steps[3]] are [undefined] and
    the form renders none of the three step components.  The same holds of
    the index -1 that two calls of [goToPreviousStep] from that render
    give. *)
Theorem getCurrentStepSchema_undefined_after_two_clicks :
  Forall (λ ev, rendered afterAdvance1 ev = true) twoClicks
  ∧ reachable steps afterTwoClicks
  ∧ isSubmitted afterTwoClicks = false
  ∧ currentStep afterTwoClicks = 3
  ∧ getCurrentStepSchema afterTwoClicks = None
  ∧ index steps (currentStep afterTwoClicks) = None
  ∧ (∃ card, render steps afterTwoClicks = Form card ∧ body card = [])
  ∧ reachable steps (batch steps afterAdvance1 (replicate 2 GoToPreviousStep))
  ∧ getCurrentStepSchema
      (batch steps afterAdvance1 (replicate 2 GoToPreviousStep)) = None.
Proof.
  assert (Ha : reachable steps afterAdvance1).
  { unfold afterAdvance1, afterMerge1.
    do 2 apply reachable_dispatch. apply reachable_initial. }
  split; [unfold twoClicks; by repeat constructor|].
  split; [by apply reachable_handleAll|].
  split; [reflexivity|]. split; [reflexivity|].
  split; [reflexivity|]. split; [reflexivity|].
  split; [eexists; split; reflexivity|].
  split; [by apply reachable_render|reflexivity].
Qed.

(** ** Further properties of the controller *)

Section MoreController.

Variable stepTable : list Step.
Implicit Types (s : HookState) (p q data : FormData).

Lemma run_app cs1 cs2 s :
  run stepTable (cs1 ++ cs2) s = run stepTable cs2 (run stepTable cs1 s).
Proof. apply fold_left_app. Qed.

Lemma run_cons c cs s :
  run stepTable (c :: cs) s = run stepTable cs (dispatch stepTable s c).
Proof. reflexivity. Qed.

Lemma run_replicate_next (n : nat) s :
  currentStep s ≤ lastIndex stepTable →
  run stepTable (replicate n GoToNextStep) s
    = withStep s (Z.min (currentStep s + Z.of_nat n) (lastIndex stepTable)).
Proof.
  revert s. induction n as [|n IH]; intros s Hs.
  - simpl. rewrite Z.add_0_r, Z.min_l by done. by rewrite withStep_same.
  - cbn [replicate]. rewrite run_cons, dispatch_next.
    destruct (isLastStep stepTable s) eqn:E.
    + apply isLastStep_true in E. rewrite IH by done.
      f_equal. lia.
    + apply isLastStep_false in E. rewrite IH by (simpl; lia).
      unfold withStep; simpl. f_equal. lia.
Qed.

Lemma run_replicate_previous (n : nat) s :
  0 ≤ currentStep s →
  run stepTable (replicate n GoToPreviousStep) s
    = withStep s (Z.max (currentStep s - Z.of_nat n) 0).
Proof.
  revert s. induction n as [|n IH]; intros s Hs.
  - simpl. rewrite Z.sub_0_r, Z.max_l by done. by rewrite withStep_same.
  - cbn [replicate]. rewrite run_cons, dispatch_previous.
    destruct (isFirstStep s) eqn:E.
    + apply isFirstStep_true in E. rewrite IH by done.
      f_equal. lia.
    + apply isFirstStep_false in E. rewrite IH by (simpl; lia).
      unfold withStep; simpl. f_equal. lia.
Qed.

Lemma spread_assoc (prev p q : FormData) :
  spread (spread prev p) q = spread prev (spread p q).
Proof. unfold spread. by rewrite (assoc_L (∪)). Qed.

Lemma spread_empty (prev : FormData) : spread prev ∅ = prev.
Proof. unfold spread. by rewrite (left_id_L ∅ (∪)). Qed.

Lemma spread_self (prev : FormData) : spread prev prev = prev.
Proof. unfold spread. by rewrite (idemp_L (∪)). Qed.

Lemma withData_same s : withData s (formData s) = s.
Proof. by destruct s. Qed.

Lemma dispatch_keeps_keys s c (k : string) :
  c ≠ ResetForm → is_Some (formData s !! k) →
  is_Some (formData (dispatch stepTable s c) !! k).
Proof.
  intros Hc Hk. destruct c; [| | | |done].
  - rewrite dispatch_next. by destruct (isLastStep stepTable s).
  - rewrite dispatch_previous. by destruct (isFirstStep s).
  - rewrite dispatch_update; simpl. rewrite spread_lookup.
    by destruct (newData !! k).
  - done.
Qed.

Lemma handle_keeps_keys s ev (k : string) :
  ev ≠ SubmitAnother → is_Some (formData s !! k) →
  is_Some (formData (handle stepTable s ev) !! k).
Proof.
  intros Hev Hk. destruct ev as [[] data | |]; [| | |done].
  - rewrite handle_next_valid.
    destruct (isLastStep stepTable s); simpl; rewrite spread_lookup;
      by destruct (data !! k).
  - by rewrite handle_next_invalid.
  - rewrite handle_previous, dispatch_previous. by destruct (isFirstStep s).
Qed.

Lemma handle_provenance s ev (k : string) (v : FieldValue) :
  formData (handle stepTable s ev) !! k = Some v →
  formData s !! k = Some v ∨ ∃ data, ev = Next true data ∧ data !! k = Some v.
Proof.
  destruct ev as [[] data | |].
  - rewrite handle_next_valid.
    assert (formData (if isLastStep stepTable s
              then withSubmitted (withData s (spread (formData s) data)) true
              else withStep (withData s (spread (formData s) data))
                     (currentStep s + 1))
            = spread (formData s) data) as ->
      by (by destruct (isLastStep stepTable s)).
    rewrite spread_lookup. destruct (data !! k) eqn:E; [|by left].
    intros [= <-]. right. by exists data.
  - rewrite handle_next_invalid. by left.
  - rewrite handle_previous, dispatch_previous.
    destruct (isFirstStep s); by left.
  - rewrite handle_reset. simpl. by rewrite lookup_empty.
Qed.

End MoreController.

(** X1. In a state whose [currentStep] is an index of the table, going
    forward and then, from the next render, back (or back and then forward)
    restores the state, unless the first move was refused at the edge:
    there the second move is the only one that counts.  When the two calls
    come from one render, both obey the guards of that render: the state
    is restored only if both moves were allowed or both refused, and on
    index 0 of a longer table forward-then-back ends on 1. *)
Theorem navigation_round_trip (stepTable : list Step) (s : HookState) :
  0 ≤ currentStep s ≤ lastIndex stepTable →
  (currentStep s ≠ lastIndex stepTable →
   dispatch stepTable (dispatch stepTable s GoToNextStep) GoToPreviousStep = s)
  ∧ (currentStep s ≠ 0 →
     dispatch stepTable (dispatch stepTable s GoToPreviousStep) GoToNextStep
       = s)
  ∧ (currentStep s = lastIndex stepTable → currentStep s ≠ 0 →
     dispatch stepTable (dispatch stepTable s GoToNextStep) GoToPreviousStep
       = withStep s (currentStep s - 1))
  ∧ (currentStep s = 0 → currentStep s ≠ lastIndex stepTable →
     dispatch stepTable (dispatch stepTable s GoToPreviousStep) GoToNextStep
       = withStep s 1)
  ∧ batch stepTable s [GoToNextStep; GoToPreviousStep]
    = withStep s (currentStep s
                  + (if isLastStep stepTable s then 0 else 1)
                  - (if isFirstStep s then 0 else 1))
  ∧ batch stepTable s [GoToPreviousStep; GoToNextStep]
    = withStep s (currentStep s
                  - (if isFirstStep s then 0 else 1)
                  + (if isLastStep stepTable s then 0 else 1)).
Proof.
  intros Hs. split; [|split; [|split; [|split; [|split]]]].
  - intros Hlast. rewrite dispatch_next.
    apply isLastStep_false in Hlast as ->.
    rewrite dispatch_previous.
    assert (isFirstStep (withStep s (currentStep s + 1)) = false) as ->
      by (apply isFirstStep_false; simpl; lia).
    destruct s; unfold withStep; simpl. f_equal. lia.
  - intros Hfirst. rewrite dispatch_previous.
    apply isFirstStep_false in Hfirst as ->.
    rewrite dispatch_next.
    assert (isLastStep stepTable (withStep s (currentStep s - 1)) = false)
      as -> by (apply isLastStep_false; simpl; lia).
    destruct s; unfold withStep; simpl. f_equal. lia.
  - intros Hlast Hfirst. rewrite dispatch_next.
    apply isLastStep_true in Hlast as ->.
    rewrite dispatch_previous. by apply isFirstStep_false in Hfirst as ->.
  - intros Hfirst Hlast. rewrite dispatch_previous.
    pose proof Hfirst as Hfirst'.
    apply isFirstStep_true in Hfirst' as ->.
    rewrite dispatch_next. apply isLastStep_false in Hlast as ->.
    by rewrite Hfirst.
  - unfold batch; cbn [flat_map call]. unfold goToNextStep, goToPreviousStep.
    destruct (isLastStep stepTable s), (isFirstStep s); simpl;
      unfold withStep; simpl; destruct s; simpl; f_equal; lia.
  - unfold batch; cbn [flat_map call]. unfold goToNextStep, goToPreviousStep.
    destruct (isLastStep stepTable s), (isFirstStep s); simpl;
      unfold withStep; simpl; destruct s; simpl; f_equal; lia.
Qed.

Lemma navigation_round_trip_witness :
  dispatch steps (dispatch steps afterAdvance1 GoToNextStep) GoToPreviousStep
    = afterAdvance1
  ∧ dispatch steps (dispatch steps afterAdvance1 GoToPreviousStep) GoToNextStep
    = afterAdvance1
  ∧ dispatch steps (dispatch steps afterAdvance3 GoToNextStep) GoToPreviousStep
    = withStep afterAdvance3 (currentStep afterAdvance3 - 1)
  ∧ dispatch steps (dispatch steps afterMerge1 GoToPreviousStep) GoToNextStep
    = withStep afterMerge1 1
  ∧ batch steps afterMerge1 [GoToNextStep; GoToPreviousStep]
    = withStep afterMerge1
        (currentStep afterMerge1
         + (if isLastStep steps afterMerge1 then 0 else 1)
         - (if isFirstStep afterMerge1 then 0 else 1)).
Proof.
  assert (H1 : 0 ≤ currentStep afterAdvance1 ≤ lastIndex steps)
    by (vm_compute; split; discriminate).
  assert (H3 : 0 ≤ currentStep afterAdvance3 ≤ lastIndex steps)
    by (vm_compute; split; discriminate).
  assert (H0 : 0 ≤ currentStep afterMerge1 ≤ lastIndex steps)
    by (vm_compute; split; discriminate).
  destruct (navigation_round_trip steps afterAdvance1 H1) as (A & B & _).
  destruct (navigation_round_trip steps afterAdvance3 H3) as (_ & _ & C & _).
  destruct (navigation_round_trip steps afterMerge1 H0)
    as (_ & _ & _ & D & F & _).
  split; [apply A; intros [=]|].
  split; [apply B; intros [=]|].
  split; [apply C; [reflexivity|intros [=]]|].
  split; [apply D; [reflexivity|intros [=]]|].
  exact F.
Defined.

(** X2. From a state in range, [n] calls of [goToNextStep] (one per
    render) end on [min (currentStep + n) (steps.length - 1)], and [n] calls
    of [goToPreviousStep] on [max (currentStep - n) 0]; nothing else
    changes. *)
Theorem repeated_navigation_clamps
    (stepTable : list Step) (s : HookState) (n : nat) :
  0 ≤ currentStep s ≤ lastIndex stepTable →
  run stepTable (replicate n GoToNextStep) s
    = withStep s (Z.min (currentStep s + Z.of_nat n) (lastIndex stepTable))
  ∧ run stepTable (replicate n GoToPreviousStep) s
    = withStep s (Z.max (currentStep s - Z.of_nat n) 0).
Proof.
  intros [H0 Hlast]. split.
  - by apply run_replicate_next.
  - by apply run_replicate_previous.
Qed.

Lemma repeated_navigation_clamps_witness :
  run steps (replicate 5 GoToNextStep) afterAdvance1
    = withStep afterAdvance1
        (Z.min (currentStep afterAdvance1 + 5) (lastIndex steps))
  ∧ run steps (replicate 5 GoToPreviousStep) afterAdvance1
    = withStep afterAdvance1 (Z.max (currentStep afterAdvance1 - 5) 0).
Proof.
  apply (repeated_navigation_clamps steps afterAdvance1 5).
  vm_compute. split; discriminate.
Defined.

(** X3. Two calls of [updateFormData] in a row leave what one call with the
    spread of the two partials leaves (the later partial wins); a call with
    the empty object, or with [formData] itself, changes nothing. *)
Theorem updateFormData_composes
    (stepTable : list Step) (s : HookState) (p q : FormData) :
  dispatch stepTable (dispatch stepTable s (UpdateFormData p))
    (UpdateFormData q)
    = dispatch stepTable s (UpdateFormData (spread p q))
  ∧ dispatch stepTable s (UpdateFormData ∅) = s
  ∧ dispatch stepTable s (UpdateFormData (formData s)) = s.
Proof.
  rewrite !dispatch_update. unfold withData; simpl.
  rewrite spread_assoc, spread_empty, spread_self.
  destruct s; simpl. split; [reflexivity|]. split; reflexivity.
Qed.

(** X4. A key of [formData] stays a key until [resetForm]: along any calls
    other than [resetForm], and along any actions on the rendered form
    other than the reset button. *)
Theorem keys_persist_until_reset (stepTable : list Step) :
  (∀ cs s (k : string),
     ResetForm ∉ cs → is_Some (formData s !! k) →
     is_Some (formData (run stepTable cs s) !! k))
  ∧ (∀ evs s s' (k : string),
       SubmitAnother ∉ evs → uiRun stepTable s evs = Some s' →
       is_Some (formData s !! k) → is_Some (formData s' !! k)).
Proof.
  split.
  - intros cs. induction cs as [|c cs IH]; intros s k Hcs Hk; [done|].
    rewrite run_cons. apply not_elem_of_cons in Hcs as [Hc Hcs].
    apply IH; [done|]. by apply dispatch_keeps_keys.
  - intros evs. induction evs as [|ev evs IH]; intros s s' k Hevs Hrun Hk.
    + simpl in Hrun. by injection Hrun as <-.
    + simpl in Hrun. apply not_elem_of_cons in Hevs as [Hev Hevs].
      destruct (uiStep stepTable s ev) as [s1|] eqn:E; [|done].
      apply uiStep_Some in E as [_ ->].
      eapply IH; [done|done|]. by apply handle_keeps_keys.
Qed.

Lemma keys_persist_until_reset_witness :
  is_Some (formData (run steps [GoToNextStep; UpdateFormData professionalFields;
                               GoToPreviousStep; SubmitForm ∅] afterMerge1)
             !! "email"%string)
  ∧ is_Some (formData (handle steps
                         (handle steps afterMerge1
                            (Next true professionalFields)) Previous)
               !! "email"%string).
Proof.
  destruct (keys_persist_until_reset steps) as [Hrun Hui].
  assert (Hk : is_Some (formData afterMerge1 !! "email"%string))
    by (vm_compute; eauto).
  split.
  - apply Hrun; [|exact Hk].
    intros Hin. repeat (apply elem_of_cons in Hin as [Hin|Hin]; [done|]).
    by apply elem_of_nil in Hin.
  - apply (Hui [Next true professionalFields; Previous] afterMerge1);
      [|reflexivity|exact Hk].
    intros Hin. repeat (apply elem_of_cons in Hin as [Hin|Hin]; [done|]).
    by apply elem_of_nil in Hin.
Defined.

(** X5. A validated [onNext] queues from one render what two calls from
    successive renders would do: [updateFormData] with the data of the step
    alone, then [submitForm] on the last step or [goToNextStep] otherwise.
    Merging the data into the snapshot before handing it to
    [updateFormData] adds nothing. *)
Theorem onNext_as_two_calls
    (stepTable : list Step) (s : HookState) (data : FormData) :
  handle stepTable s (Next true data)
    = dispatch stepTable (dispatch stepTable s (UpdateFormData data))
        (if isLastStep stepTable s
         then SubmitForm (spread (formData s) data)
         else GoToNextStep).
Proof.
  rewrite handle_next_valid, dispatch_update.
  destruct (isLastStep stepTable s) eqn:E.
  - by rewrite dispatch_submit.
  - rewrite dispatch_next.
    assert (isLastStep stepTable (withData s (spread (formData s) data))
            = false) as -> by exact E.
    reflexivity.
Qed.

Lemma uiRun_valid_nexts (stepTable : list Step) (ds : list FormData) :
  ∀ s : HookState,
    0 ≤ currentStep s ≤ lastIndex stepTable →
    isSubmitted s = false →
    Z.of_nat (length ds) = lastIndex stepTable - currentStep s + 1 →
    uiRun stepTable s (Next true <$> ds)
      = Some {| currentStep := lastIndex stepTable;
                formData := fold_left spread ds (formData s);
                isSubmitted := true |}.
Proof.
  induction ds as [|d ds IH]; intros s Hs Hsub Hlen.
  - simpl in Hlen. lia.
  - cbn [fmap list_fmap uiRun]. unfold uiStep; cbn [rendered].
    rewrite Hsub; cbn [negb]. rewrite handle_next_valid.
    destruct (isLastStep stepTable s) eqn:E.
    + apply isLastStep_true in E.
      destruct ds as [|d' ds]; [|simpl in Hlen; lia].
      unfold withSubmitted, withData; simpl. by rewrite E.
    + apply isLastStep_false in E.
      rewrite IH; [done|simpl; lia|done|].
      simpl in Hlen |- *. lia.
Qed.

(** X6. With every click handled in a render of its own, the rendered form
    has no dead end: for a table no longer than [stepSchemas], from any
    state that is not submitted and whose [currentStep] is an index of the
    table, as many validated [Next] clicks as there are steps left, the
    current one included, end submitted on the last index, with the data of
    the clicks merged into [formData] in the order of the clicks; every
    index from the current one to the last has a schema. *)
Theorem submission_is_reachable
    (stepTable : list Step) (s : HookState) (ds : list FormData) :
  (length stepTable ≤ length stepSchemas)%nat →
  0 ≤ currentStep s ≤ lastIndex stepTable →
  isSubmitted s = false →
  Z.of_nat (length ds) = lastIndex stepTable - currentStep s + 1 →
  uiRun stepTable s (Next true <$> ds)
    = Some {| currentStep := lastIndex stepTable;
              formData := fold_left spread ds (formData s);
              isSubmitted := true |}
  ∧ ∀ i, currentStep s ≤ i ≤ lastIndex stepTable →
         is_Some (getCurrentStepSchema (withStep s i)).
Proof.
  intros Hlen Hs Hsub Hds. split; [by apply uiRun_valid_nexts|].
  intros i Hi.
  destruct (getCurrentStepSchema (withStep s i)) eqn:E; [by eexists|].
  apply getCurrentStepSchema_None in E. unfold lastIndex in *.
  simpl in Hlen, E. lia.
Qed.

Lemma submission_is_reachable_witness :
  uiRun steps afterAdvance1 (Next true <$> [professionalFields; billingFields])
    = Some {| currentStep := lastIndex steps;
              formData := fold_left spread [professionalFields; billingFields]
                            (formData afterAdvance1);
              isSubmitted := true |}
  ∧ ∀ i, currentStep afterAdvance1 ≤ i ≤ lastIndex steps →
         is_Some (getCurrentStepSchema (withStep afterAdvance1 i)).
Proof.
  apply (submission_is_reachable steps afterAdvance1
           [professionalFields; billingFields]).
  - simpl. lia.
  - vm_compute. split; discriminate.
  - reflexivity.
  - reflexivity.
Defined.

Lemma uiRun_provenance (stepTable : list Step) (evs : list Event) :
  ∀ (s s' : HookState) (k : string) (v : FieldValue),
    uiRun stepTable s evs = Some s' → formData s' !! k = Some v →
    formData s !! k = Some v
    ∨ ∃ data, Next true data ∈ evs ∧ data !! k = Some v.
Proof.
  induction evs as [|ev evs IH]; intros s s' k v Hrun Hk.
  - simpl in Hrun. injection Hrun as <-. by left.
  - simpl in Hrun.
    destruct (uiStep stepTable s ev) as [s1|] eqn:E; [|done].
    apply uiStep_Some in E as [_ ->].
    destruct (IH _ _ _ _ Hrun Hk) as [H1 | (data & Hin & Hd)].
    + destruct (handle_provenance _ _ _ _ _ H1) as [H0 | (data & -> & Hd)].
      * by left.
      * right. exists data. split; [apply elem_of_cons; by left|done].
    + right. exists data. split; [apply elem_of_cons; by right|done].
Qed.

(** X7. Whatever the user did on the rendered form since construction,
    every entry of [formData] is an entry of the data of some [Next] click
    that passed validation: data of a click that failed validation never
    reaches [formData]. *)
Theorem formData_comes_from_validated_clicks
    (stepTable : list Step) (evs : list Event) (s : HookState)
    (k : string) (v : FieldValue) :
  uiRun stepTable initialState evs = Some s →
  formData s !! k = Some v →
  ∃ data, Next true data ∈ evs ∧ data !! k = Some v.
Proof.
  intros Hrun Hk.
  destruct (uiRun_provenance stepTable evs _ _ _ _ Hrun Hk) as [H0|H]; [|done].
  simpl in H0. by rewrite lookup_empty in H0.
Qed.

Lemma formData_comes_from_validated_clicks_witness :
  ∃ data,
    Next true data ∈ [Next false billingFields; Next true personalFields;
                      Previous; Next false professionalFields]
    ∧ data !! "email"%string = Some (VString "a@b.com").
Proof.
  apply (formData_comes_from_validated_clicks steps
           [Next false billingFields; Next true personalFields;
            Previous; Next false professionalFields]
           afterMerge1 "email"%string (VString "a@b.com")).
  - vm_compute. reflexivity.
  - vm_compute. reflexivity.
Defined.



Lemma oneAtATime_run (stepTable : list Step) (cs : list Command) :
  ∀ s, reachableOneAtATime stepTable s →
       reachableOneAtATime stepTable (run stepTable cs s).
Proof.
  induction cs as [|c cs IH]; intros s Hs; [done|].
  rewrite run_cons. apply IH. by apply oneAtATime_dispatch.
Qed.

(** X9. [getCurrentStepSchema] answers [undefined] exactly outside the
    indices of [stepSchemas].  The hook bounds [currentStep] by the length
    of [steps] alone.  With every call and handler in a render of its own,
    a step table of one to three entries keeps the lookup defined in every
    state reached, and a longer one reaches a state with no schema.  When
    calls may share a render, every table but one of a single step reaches
    a state with no schema. *)
Theorem schema_lookup_bounds (stepTable : list Step) :
  (∀ s, getCurrentStepSchema s = None
        ↔ currentStep s < 0 ∨ Z.of_nat (length stepSchemas) ≤ currentStep s)
  ∧ ((1 ≤ length stepTable ≤ length stepSchemas)%nat →
     ∀ s, reachableOneAtATime stepTable s → is_Some (getCurrentStepSchema s))
  ∧ ((length stepSchemas < length stepTable)%nat →
     ∃ s, reachableOneAtATime stepTable s ∧ getCurrentStepSchema s = None)
  ∧ (length stepTable ≠ 1%nat →
     ∃ s, reachable stepTable s ∧ getCurrentStepSchema s = None).
Proof.
  split; [apply getCurrentStepSchema_None|]. split; [|split].
  - intros [H1 H3] s Hs.
    pose proof (oneAtATime_inRange stepTable H1 s Hs) as Hr.
    unfold inRange, lastIndex in Hr.
    destruct (getCurrentStepSchema s) eqn:E; [by eexists|].
    apply getCurrentStepSchema_None in E. lia.
  - intros Hlong.
    exists (run stepTable (replicate (length stepSchemas) GoToNextStep)
              initialState).
    split; [apply oneAtATime_run, oneAtATime_initial|].
    apply getCurrentStepSchema_None. right.
    rewrite run_replicate_next by (unfold lastIndex; simpl; lia).
    unfold lastIndex, withStep. simpl in Hlong |- *. lia.
  - intros Hlen.
    exists (batch stepTable initialState
              (replicate (length stepSchemas) GoToNextStep)).
    split; [apply reachable_render, reachable_initial|].
    apply getCurrentStepSchema_None. right.
    rewrite batch_next_calls.
    assert (isLastStep stepTable initialState = false) as ->
      by (apply isLastStep_false; unfold lastIndex; simpl; lia).
    simpl. lia.
Qed.

Lemma schema_lookup_bounds_witness :
  is_Some (getCurrentStepSchema afterAdvance3)
  ∧ (∃ s, reachableOneAtATime (steps ++ steps) s
          ∧ getCurrentStepSchema s = None)
  ∧ ∃ s, reachable steps s ∧ getCurrentStepSchema s = None.
Proof.
  destruct (schema_lookup_bounds steps) as (_ & Hsome & _ & Hshared).
  destruct (schema_lookup_bounds (steps ++ steps)) as (_ & _ & Hnone & _).
  split; [|split].
  - apply Hsome; [simpl; lia|].
    unfold afterAdvance3, afterMerge2, afterAdvance2, afterRetreat,
      afterAdvance1, afterMerge1.
    repeat apply oneAtATime_dispatch. apply oneAtATime_initial.
  - apply Hnone. simpl. lia.
  - apply Hshared. simpl. lia.
Defined.

(** ** The progress indicator *)

Lemma progressItem_shift (currentStep total : Z) (i : nat) (step : Step) :
  progressItem currentStep total (S i) step
    = progressItem (currentStep - 1) (total - 1) i step.
Proof.
  unfold progressItem. rewrite Nat2Z.inj_succ.
  replace (Z.succ (Z.of_nat i) <? currentStep)
    with (Z.of_nat i <? currentStep - 1)
    by (apply eq_iff_eq_true; rewrite !Z.ltb_lt; lia).
  replace (Z.succ (Z.of_nat i) =? currentStep)
    with (Z.of_nat i =? currentStep - 1)
    by (apply eq_iff_eq_true; rewrite !Z.eqb_eq; lia).
  replace (Z.succ (Z.of_nat i) <? total - 1)
    with (Z.of_nat i <? total - 1 - 1)
    by (apply eq_iff_eq_true; rewrite !Z.ltb_lt; lia).
  reflexivity.
Qed.

Lemma imap_progressItem_tail (currentStep total : Z) (l : list Step) :
  imap (progressItem currentStep total ∘ S) l
    = imap (progressItem (currentStep - 1) (total - 1)) l.
Proof. apply imap_ext. intros i x _. apply progressItem_shift. Qed.

Lemma glyphs_of_items (l : list Step) :
  ∀ currentStep total : Z,
    glyph <$> imap (progressItem currentStep total) l
      = replicate (Z.to_nat currentStep `min` length l) CheckMark
        ++ ((StepIcon ∘ icon) <$> drop (Z.to_nat currentStep) l).
Proof.
  induction l as [|x l IH]; intros cs total.
  - by rewrite Nat.min_0_r, drop_nil.
  - rewrite imap_cons, fmap_cons, imap_progressItem_tail, IH.
    unfold progressItem at 1; cbn [glyph].
    destruct (Z.ltb_spec (Z.of_nat 0) cs) as [Hpos|Hneg].
    + replace (Z.to_nat cs) with (S (Z.to_nat (cs - 1))) by lia.
      reflexivity.
    + replace (Z.to_nat cs) with 0%nat by lia.
      replace (Z.to_nat (cs - 1)) with 0%nat by lia.
      reflexivity.
Qed.

Lemma circles_of_items (l : list Step) :
  ∀ currentStep total : Z,
    circle <$> imap (progressItem currentStep total) l
      = replicate (Z.to_nat (currentStep + 1) `min` length l) Primary
        ++ replicate (length l - Z.to_nat (currentStep + 1)) Gray.
Proof.
  induction l as [|x l IH]; intros cs total.
  - by rewrite Nat.min_0_r.
  - rewrite imap_cons, fmap_cons, imap_progressItem_tail, IH.
    unfold progressItem at 1; cbn [circle].
    destruct (Z.ltb_spec (Z.of_nat 0) cs) as [Hpos|Hneg];
      [|destruct (Z.eqb_spec (Z.of_nat 0) cs) as [Heq|Hne]].
    + replace (Z.to_nat (cs + 1)) with (S (Z.to_nat (cs - 1 + 1))) by lia.
      reflexivity.
    + replace (Z.to_nat (cs + 1)) with (S (Z.to_nat (cs - 1 + 1))) by lia.
      reflexivity.
    + replace (Z.to_nat (cs + 1)) with 0%nat by lia.
      replace (Z.to_nat (cs - 1 + 1)) with 0%nat by lia.
      by rewrite !Nat.sub_0_r.
Qed.

Lemma connectors_of_items (l : list Step) :
  ∀ (x : Step) (currentStep : Z),
    connector <$> imap (progressItem currentStep
                          (Z.of_nat (length (x :: l)))) (x :: l)
      = (Some <$> (replicate (Z.to_nat currentStep `min` length l) Primary
                   ++ replicate (length l - Z.to_nat currentStep) Gray))
        ++ [None].
Proof.
  induction l as [|y l IH]; intros x cs.
  - cbn [length]. by rewrite Nat.min_0_r.
  - rewrite imap_cons, fmap_cons, imap_progressItem_tail.
    replace (Z.of_nat (length (x :: y :: l)) - 1)
      with (Z.of_nat (length (y :: l))) by (cbn [length]; lia).
    rewrite IH.
    unfold progressItem at 1; cbn [connector].
    replace (Z.of_nat 0 <? Z.of_nat (length (x :: y :: l)) - 1) with true
      by (symmetry; apply Z.ltb_lt; cbn [length]; lia).
    destruct (Z.ltb_spec (Z.of_nat 0) cs) as [Hpos|Hneg].
    + replace (Z.to_nat cs) with (S (Z.to_nat (cs - 1))) by lia.
      reflexivity.
    + replace (Z.to_nat cs) with 0%nat by lia.
      replace (Z.to_nat (cs - 1)) with 0%nat by lia.
      by rewrite !Nat.sub_0_r.
Qed.

(** X10. [ProgressSteps] renders one item per step, in order, under the
    step's id and name.  The check mark replaces the icon on exactly the
    first [currentStep] items (all of them when [currentStep] exceeds the
    table, none when it is negative), and the circle is in the primary
    colour on exactly the first [currentStep + 1] items. *)
Theorem progress_marks_completed_steps
    (currentStep : Z) (stepTable : list Step) :
  itemKey <$> progressSteps currentStep stepTable = id <$> stepTable
  ∧ itemName <$> progressSteps currentStep stepTable = name <$> stepTable
  ∧ glyph <$> progressSteps currentStep stepTable
    = replicate (Z.to_nat currentStep `min` length stepTable) CheckMark
      ++ ((StepIcon ∘ icon) <$> drop (Z.to_nat currentStep) stepTable)
  ∧ circle <$> progressSteps currentStep stepTable
    = replicate (Z.to_nat (currentStep + 1) `min` length stepTable) Primary
      ++ replicate (length stepTable - Z.to_nat (currentStep + 1)) Gray.
Proof.
  unfold progressSteps. split; [|split; [|split]].
  - apply list_eq; intros i.
    rewrite !list_lookup_fmap, list_lookup_imap.
    by destruct (stepTable !! i).
  - apply list_eq; intros i.
    rewrite !list_lookup_fmap, list_lookup_imap.
    by destruct (stepTable !! i).
  - apply glyphs_of_items.
  - apply circles_of_items.
Qed.

(** X11. For a table that is not empty, every item but the last has a
    connecting line and the last has none; the line is in the primary
    colour after exactly the first [currentStep] items (after all that have
    a line when [currentStep] is beyond them). *)
Theorem progress_connects_the_steps
    (currentStep : Z) (stepTable : list Step) :
  stepTable ≠ [] →
  connector <$> progressSteps currentStep stepTable
    = (Some <$> (replicate (Z.to_nat currentStep `min` (length stepTable - 1))
                   Primary
                 ++ replicate (length stepTable - 1 - Z.to_nat currentStep)
                      Gray))
      ++ [None].
Proof.
  intros Hne. destruct stepTable as [|x l]; [done|].
  unfold progressSteps. rewrite connectors_of_items.
  cbn [length]. by rewrite Nat.sub_succ, Nat.sub_0_r.
Qed.

Lemma progress_connects_the_steps_witness :
  connector <$> progressSteps 1 steps
    = (Some <$> (replicate (Z.to_nat 1 `min` (length steps - 1)) Primary
                 ++ replicate (length steps - 1 - Z.to_nat 1) Gray))
      ++ [None].
Proof. apply (progress_connects_the_steps 1 steps). discriminate. Defined.

(** ** [useToggle] *)

(** X12. After [n] calls of [toggle], however they are spread over
    renders, the value is the initial one when [n] is even and its negation
    when [n] is odd: the callback reads no snapshot, so no call is lost. *)
Theorem toggle_parity (n : nat) (value : bool) :
  UseToggle.flush (UseToggle.toggles n) value
    = if Nat.even n then value else negb value.
Proof.
  revert value. induction n as [|n IH]; intros value; [reflexivity|].
  change (UseToggle.flush (UseToggle.toggles (S n)) value)
    with (UseToggle.flush (UseToggle.toggles n) (negb value)).
  rewrite IH, Nat.even_succ, <- Nat.negb_even.
  destruct (Nat.even n); simpl; [reflexivity|apply negb_involutive].
Qed.

(** ** [useForm] *)

Section UseFormFacts.

Context {V : Type}.
Variable str : string → V.
Variable initialValues : gmap string V.
Variable hasCallback : bool.

Lemma useForm_dispatch_change (values : gmap string V) (name value : string) :
  UseForm.dispatch str initialValues hasCallback values
    (UseForm.HandleChange name value)
    = <[name := str value]> values.
Proof. reflexivity. Qed.

Lemma useForm_dispatch_submit (values : gmap string V) :
  UseForm.dispatch str initialValues hasCallback values UseForm.HandleSubmit
    = values.
Proof.
  unfold UseForm.dispatch, UseForm.call, UseForm.handleSubmit.
  by destruct hasCallback.
Qed.

Lemma useForm_run_cons c cs (values : gmap string V) :
  UseForm.run str initialValues hasCallback (c :: cs) values
    = UseForm.run str initialValues hasCallback cs
        (UseForm.dispatch str initialValues hasCallback values c).
Proof. reflexivity. Qed.

Lemma useForm_run_keeps_initial_keys cs :
  ∀ values : gmap string V,
    dom initialValues ⊆ dom values →
    dom initialValues
      ⊆ dom (UseForm.run str initialValues hasCallback cs values).
Proof.
  induction cs as [|c cs IH]; intros values Hdom; [done|].
  rewrite useForm_run_cons. apply IH. destruct c.
  - rewrite useForm_dispatch_change, dom_insert. set_solver.
  - by rewrite useForm_dispatch_submit.
  - done.
Qed.

End UseFormFacts.

(** X13. [handleChange] writes the reported value under the name of the
    input and leaves every other key alone; a second change of the same
    input replaces the first, and changes of two different inputs can be
    swapped. *)
Theorem handleChange_writes_one_key {V : Type}
    (str : string → V) (initialValues : gmap string V) (hasCallback : bool)
    (values : gmap string V) (n1 n2 v1 v2 k : string) :
  UseForm.dispatch str initialValues hasCallback values
    (UseForm.HandleChange n1 v1) !! k
    = (if decide (n1 = k) then Some (str v1) else values !! k)
  ∧ UseForm.run str initialValues hasCallback
      [UseForm.HandleChange n1 v1; UseForm.HandleChange n1 v2] values
    = UseForm.dispatch str initialValues hasCallback values
        (UseForm.HandleChange n1 v2)
  ∧ (n1 ≠ n2 →
     UseForm.run str initialValues hasCallback
       [UseForm.HandleChange n1 v1; UseForm.HandleChange n2 v2] values
     = UseForm.run str initialValues hasCallback
         [UseForm.HandleChange n2 v2; UseForm.HandleChange n1 v1] values).
Proof.
  split; [|split].
  - rewrite useForm_dispatch_change. apply lookup_insert.
  - rewrite !useForm_run_cons, !useForm_dispatch_change. simpl.
    apply insert_insert_eq.
  - intros Hne. rewrite !useForm_run_cons, !useForm_dispatch_change. simpl.
    by apply insert_insert_ne.
Qed.

Lemma handleChange_writes_one_key_witness :
  UseForm.run (λ v : string, v) ∅ true
    [UseForm.HandleChange "email" "a@b.com"; UseForm.HandleChange "password" "x"]
    ∅
  = UseForm.run (λ v : string, v) ∅ true
      [UseForm.HandleChange "password" "x"; UseForm.HandleChange "email" "a@b.com"]
      ∅.
Proof.
  apply (handleChange_writes_one_key (λ v : string, v) ∅ true ∅
           "email" "password" "a@b.com" "x" "email").
  discriminate.
Defined.

(** X14. Whatever was typed or submitted, [resetForm] brings back
    [initialValues]; until then no key of [initialValues] is ever missing
    from [values]; and [handleSubmit] leaves [values] alone, calling
    [callback], when one was given, once with the values of the render. *)
Theorem useForm_reset_and_submit {V : Type}
    (str : string → V) (initialValues : gmap string V) (hasCallback : bool)
    (cs : list UseForm.Command) (values : gmap string V) :
  UseForm.run str initialValues hasCallback (cs ++ [UseForm.ResetForm]) values
    = initialValues
  ∧ dom initialValues
    ⊆ dom (UseForm.run str initialValues hasCallback cs initialValues)
  ∧ UseForm.dispatch str initialValues hasCallback values UseForm.HandleSubmit
    = values
  ∧ UseForm.callbacks
      (UseForm.call str initialValues hasCallback values UseForm.HandleSubmit)
    = (if hasCallback then [values] else []).
Proof.
  split; [|split; [|split]].
  - unfold UseForm.run. by rewrite fold_left_app.
  - by apply useForm_run_keeps_initial_keys.
  - apply useForm_dispatch_submit.
  - unfold UseForm.call, UseForm.handleSubmit. by destruct hasCallback.
Qed.

(** ** [useFetch] and [User] *)

Section UseFetchFacts.

Context {D E : Type}.
Implicit Types (s : @UseFetch.State D E) (ev : @UseFetch.Event D E).

Lemma fetch_run_snoc (evs : list (@UseFetch.Event D E)) ev s :
  UseFetch.run (evs ++ [ev]) s = UseFetch.handle (UseFetch.run evs s) ev.
Proof. unfold UseFetch.run. by rewrite fold_left_app. Qed.

Lemma lastOf_snoc {A B : Type} (pick : A → option B) (l : list A) (x : A) :
  UseFetch.lastOf pick (l ++ [x])
    = match pick x with
      | Some b => Some b
      | None => UseFetch.lastOf pick l
      end.
Proof.
  unfold UseFetch.lastOf. rewrite omap_app. simpl.
  destruct (pick x); [apply last_snoc|by rewrite app_nil_r].
Qed.

Lemma fetch_state (evs : list (@UseFetch.Event D E)) :
  UseFetch.run evs UseFetch.initialState
    = {| UseFetch.data :=
           default None (UseFetch.lastOf UseFetch.resolution evs);
         UseFetch.error := UseFetch.lastOf UseFetch.rejection evs;
         UseFetch.loading := negb (existsb UseFetch.settled evs) |}.
Proof.
  induction evs as [|ev evs IH] using rev_ind; [reflexivity|].
  rewrite fetch_run_snoc, IH, !lastOf_snoc, existsb_app.
  destruct ev as [url|[json|err]]; simpl.
  - by rewrite orb_false_r.
  - by rewrite orb_true_r.
  - by rewrite orb_true_r.
Qed.

Lemma resolution_settled (evs : list (@UseFetch.Event D E)) :
  is_Some (UseFetch.lastOf UseFetch.resolution evs) →
  existsb UseFetch.settled evs = true.
Proof.
  induction evs as [|ev evs IH] using rev_ind; [by intros [? [=]]|].
  rewrite lastOf_snoc, existsb_app.
  destruct ev as [url|[json|err]]; simpl.
  - intros H. by rewrite IH.
  - intros _. by rewrite orb_true_r.
  - intros _. by rewrite orb_true_r.
Qed.

Lemma lastOf_middle {A B : Type} (pick : A → option B)
    (l1 l2 : list A) (x : A) :
  is_Some (pick x) → is_Some (UseFetch.lastOf pick (l1 ++ x :: l2)).
Proof.
  intros [b Hb]. unfold UseFetch.lastOf. apply last_is_Some.
  rewrite omap_app. simpl. rewrite Hb. by destruct (omap pick l1).
Qed.

End UseFetchFacts.

(** X15. After any starts and settlements, in the order they happen,
    [data] is the body of the last run that resolved ([null] if none),
    [error] is what the last run that rejected was caught with ([null] if
    none), and [loading] is true only as long as nothing has settled: a new
    start does not set it again, a later success does not clear [error],
    and a later failure does not clear [data]. *)
Theorem fetch_state_after_events {D E : Type}
    (evs : list (@UseFetch.Event D E)) :
  UseFetch.run evs UseFetch.initialState
    = {| UseFetch.data :=
           default None (UseFetch.lastOf UseFetch.resolution evs);
         UseFetch.error := UseFetch.lastOf UseFetch.rejection evs;
         UseFetch.loading := negb (existsb UseFetch.settled evs) |}.
Proof. apply fetch_state. Qed.

(** X16. [User] shows "Loading..." until a run settles.  After that it
    shows "Error occurred!" exactly when the value caught from the last run
    that rejected is truthy, also when a later run resolved; otherwise it
    shows the name of the last body that arrived, or "Unknown" when there
    is none or it is [null]. *)
Theorem user_view_after_events {E : Type} (truthy : E → bool)
    (evs : list (@UseFetch.Event string E)) :
  (existsb UseFetch.settled evs = false →
   UseFetch.userView truthy (UseFetch.run evs UseFetch.initialState)
     = UseFetch.Loading)
  ∧ (existsb UseFetch.settled evs = true →
     UseFetch.userView truthy (UseFetch.run evs UseFetch.initialState)
     = if UseFetch.isTruthy truthy (UseFetch.lastOf UseFetch.rejection evs)
       then UseFetch.ErrorOccurred
       else UseFetch.UserFound
              (default "Unknown"%string
                 (default None (UseFetch.lastOf UseFetch.resolution evs))))
  ∧ (∀ evs1 err evs2,
       evs = evs1 ++ UseFetch.Settle (UseFetch.Rejected err) :: evs2 →
       Forall (λ ev, UseFetch.rejection ev = None) evs2 →
       UseFetch.userView truthy (UseFetch.run evs UseFetch.initialState)
       = if truthy err then UseFetch.ErrorOccurred
         else UseFetch.UserFound
                (default "Unknown"%string
                   (default None (UseFetch.lastOf UseFetch.resolution evs)))).
Proof.
  rewrite fetch_state. unfold UseFetch.userView; simpl.
  split; [|split].
  - by intros ->.
  - by intros ->.
  - intros evs1 err evs2 -> Hnone.
    rewrite existsb_app; simpl. rewrite orb_true_r; simpl.
    assert (UseFetch.lastOf UseFetch.rejection
              (evs1 ++ UseFetch.Settle (UseFetch.Rejected err) :: evs2)
            = Some err) as ->; [|reflexivity].
    assert (Hnil : omap UseFetch.rejection evs2 = []).
    { clear -Hnone. induction Hnone as [|ev evs2 Hev _ IH]; [done|].
      simpl. by rewrite Hev. }
    unfold UseFetch.lastOf. rewrite omap_app.
    change (omap UseFetch.rejection
              (UseFetch.Settle (UseFetch.Rejected err) :: evs2))
      with (err :: omap UseFetch.rejection evs2).
    rewrite Hnil. apply last_snoc.
Qed.

Lemma user_view_after_events_witness :
  UseFetch.userView UseFetch.truthyString
    (UseFetch.run [UseFetch.Start "u"] (@UseFetch.initialState string string))
    = UseFetch.Loading
  ∧ UseFetch.userView UseFetch.truthyString
      (UseFetch.run
         [UseFetch.Start "u"; UseFetch.Settle (UseFetch.Rejected "down");
          UseFetch.Start "v"; UseFetch.Settle (UseFetch.Resolved (Some "Ann"))]
         (@UseFetch.initialState string string))
    = UseFetch.ErrorOccurred
  ∧ UseFetch.userView UseFetch.truthyString
      (UseFetch.run
         [UseFetch.Start "u"; UseFetch.Settle (UseFetch.Rejected "")]
         (@UseFetch.initialState string string))
    = UseFetch.UserFound "Unknown".
Proof.
  split; [|split].
  - apply (user_view_after_events UseFetch.truthyString [UseFetch.Start "u"]).
    reflexivity.
  - apply (user_view_after_events UseFetch.truthyString
             [UseFetch.Start "u"; UseFetch.Settle (UseFetch.Rejected "down");
              UseFetch.Start "v";
              UseFetch.Settle (UseFetch.Resolved (Some "Ann"))]).
    reflexivity.
  - apply (user_view_after_events UseFetch.truthyString
             [UseFetch.Start "u"; UseFetch.Settle (UseFetch.Rejected "")])
      with (evs1 := [UseFetch.Start "u"]) (err := ""%string)
           (evs2 := @nil (@UseFetch.Event string string)).
    + reflexivity.
    + constructor.
Defined.

(** ** [AdvancedForm] *)

Lemma advancedForm_change_wellTyped
    (formData : gmap string AdvancedForm.Val) (target : AdvancedForm.Target) :
  AdvancedForm.Rendered target → AdvancedForm.wellTyped formData →
  AdvancedForm.wellTyped (AdvancedForm.change formData target).
Proof.
  intros Hr (Hdom & (g & Hg & Hgin) & (c & Hc & Hcin) & (b & Hb)).
  unfold AdvancedForm.wellTyped, AdvancedForm.change,
    AdvancedForm.handleOnChange.
  destruct Hr as [b'|b'|v Hv|b']; simpl; rewrite dom_insert_L, Hdom.
  - split; [set_solver|]. split; [|split].
    + exists "Male"%string. rewrite lookup_insert_eq.
      split; [done|repeat constructor].
    + exists c. by rewrite lookup_insert_ne.
    + exists b. by rewrite lookup_insert_ne.
  - split; [set_solver|]. split; [|split].
    + exists "Female"%string. rewrite lookup_insert_eq.
      split; [done|repeat constructor].
    + exists c. by rewrite lookup_insert_ne.
    + exists b. by rewrite lookup_insert_ne.
  - split; [set_solver|]. split; [|split].
    + exists g. by rewrite lookup_insert_ne.
    + exists v. by rewrite lookup_insert_eq.
    + exists b. by rewrite lookup_insert_ne.
  - split; [set_solver|]. split; [|split].
    + exists g. by rewrite lookup_insert_ne.
    + exists c. by rewrite lookup_insert_ne.
    + exists b'. by rewrite lookup_insert_eq.
Qed.

(** X17. Whatever the user does with the two radio buttons, the select and
    the checkbox, [formData] keeps exactly its three keys, [gender] is the
    empty string, "Male" or "Female", [country] is one of the three
    options, and [agree] is a boolean: the handler stores the [checked]
    flag of the checkbox, never its [value]. *)
Theorem advancedForm_stays_well_typed (targets : list AdvancedForm.Target) :
  Forall AdvancedForm.Rendered targets →
  AdvancedForm.wellTyped
    (fold_left AdvancedForm.change targets AdvancedForm.initialFormData).
Proof.
  assert (Hinit : AdvancedForm.wellTyped AdvancedForm.initialFormData).
  { unfold AdvancedForm.wellTyped, AdvancedForm.initialFormData.
    split; [|split; [|split]].
    - rewrite !dom_insert_L, dom_singleton_L. set_solver.
    - exists ""%string. split; [reflexivity|repeat constructor].
    - exists "Bangladesh"%string. split; [reflexivity|repeat constructor].
    - by exists false. }
  revert Hinit. generalize AdvancedForm.initialFormData.
  induction targets as [|t targets IH]; intros fd Hfd Hall; [done|].
  apply Forall_cons in Hall as [Ht Hall]. simpl.
  apply IH; [|done]. by apply advancedForm_change_wellTyped.
Qed.

Lemma advancedForm_stays_well_typed_witness :
  AdvancedForm.wellTyped
    (fold_left AdvancedForm.change
       [AdvancedForm.mkTarget "agree" "checkbox" "on" true;
        AdvancedForm.mkTarget "gender" "radio" "Female" true;
        AdvancedForm.mkTarget "country" "select-one" "UK" false]
       AdvancedForm.initialFormData).
Proof.
  apply advancedForm_stays_well_typed.
  repeat apply Forall_cons_2; [constructor|constructor| |apply Forall_nil_2].
  constructor. repeat constructor.
Defined.


(** ** The step index, one call per render *)

(** X18. With at least one step and every call or handler in a render of
    its own, [currentStep] stays within [0 .. steps.length - 1]: in every
    state reached that way and along every such sequence of calls from a
    state in range.  A call of [goToNextStep] changes nothing on the last
    index and otherwise adds exactly 1 to [currentStep]; a call of
    [goToPreviousStep] changes nothing on index 0 and otherwise subtracts
    exactly 1. *)
Theorem currentStep_stays_in_range (stepTable : list Step) :
  (1 ≤ length stepTable)%nat →
  (∀ s, reachableOneAtATime stepTable s →
        0 ≤ currentStep s ≤ lastIndex stepTable) ∧
  (∀ s cs, 0 ≤ currentStep s ≤ lastIndex stepTable →
     0 ≤ currentStep (run stepTable cs s) ≤ lastIndex stepTable) ∧
  (∀ s, currentStep s = lastIndex stepTable →
     dispatch stepTable s GoToNextStep = s) ∧
  (∀ s, currentStep s ≠ lastIndex stepTable →
     dispatch stepTable s GoToNextStep = withStep s (currentStep s + 1)) ∧
  (∀ s, currentStep s = 0 → dispatch stepTable s GoToPreviousStep = s) ∧
  (∀ s, currentStep s ≠ 0 →
     dispatch stepTable s GoToPreviousStep = withStep s (currentStep s - 1)).
Proof.
  intros HN. repeat split.
  - by apply (oneAtATime_inRange stepTable HN).
  - by apply (oneAtATime_inRange stepTable HN).
  - by apply (run_inRange stepTable HN).
  - by apply (run_inRange stepTable HN).
  - intros s Hs. rewrite dispatch_next.
    by apply isLastStep_true in Hs as ->.
  - intros s Hs. rewrite dispatch_next.
    by apply isLastStep_false in Hs as ->.
  - intros s Hs. rewrite dispatch_previous.
    by apply isFirstStep_true in Hs as ->.
  - intros s Hs. rewrite dispatch_previous.
    by apply isFirstStep_false in Hs as ->.
Qed.

Lemma currentStep_stays_in_range_witness :
  (1 ≤ length steps)%nat ∧
  0 ≤ currentStep (dispatch steps (dispatch steps initialState GoToNextStep)
                     GoToNextStep) ≤ lastIndex steps ∧
  0 ≤ currentStep (run steps [GoToNextStep; GoToNextStep; GoToNextStep;
                              GoToPreviousStep] initialState)
    ≤ lastIndex steps ∧
  dispatch steps (withStep initialState 2) GoToNextStep
    = withStep initialState 2 ∧
  dispatch steps (withStep initialState 1) GoToNextStep
    = withStep (withStep initialState 1) 2 ∧
  dispatch steps initialState GoToPreviousStep = initialState ∧
  dispatch steps (withStep initialState 2) GoToPreviousStep
    = withStep (withStep initialState 2) 1.
Proof.
  assert (HN : (1 ≤ length steps)%nat) by (simpl; lia).
  destruct (currentStep_stays_in_range steps HN)
    as (Hreach & Hrun & Hlast & Hnext & Hfirst & Hprev).
  split; [exact HN|]. split.
  { apply Hreach. do 2 apply oneAtATime_dispatch. apply oneAtATime_initial. }
  split. { apply Hrun. vm_compute. split; discriminate. }
  split. { apply Hlast. reflexivity. }
  split. { apply (Hnext (withStep initialState 1)). vm_compute. discriminate. }
  split. { apply Hfirst. reflexivity. }
  apply (Hprev (withStep initialState 2)). vm_compute. discriminate.
Defined.
